(** * The club rail and its owning shell

    A shallow embedding of
      - [src/lib/types/club.ts]                      (the [ClubSummary] shape),
      - [src/lib/components/layout/ClubRail.svelte]  (the navigation rail),
      - [src/routes/app/+layout.svelte]              (the shell that owns the state),
    followed by the properties the specification states about them and
    further properties of the code.

    Modelling conventions.
      - A JavaScript string is the list of its UTF-16 code units ([list N],
        every unit below 0x10000).
      - An optional property [x?: T] is an [option] ([None] is [undefined]);
        a property [x?: T | null] is an [optional_nullable].
      - The counters are integer-valued numbers ([Z]); the data model of the
        specification makes them non-negative integers.
      - A callback is a state transformer on the state of whoever owns it,
        and may throw: [handler S]. *)

From Stdlib Require Import ZArith NArith Strings.String Strings.Ascii Lia.
From stdpp Require Import base option list.

(** ** JavaScript strings and the built-ins the components call *)

Module JS.

Abbreviation jsstring := (list N).

(** The code units of an ASCII literal. *)
Definition js (s : string) : jsstring :=
  map N_of_ascii (list_ascii_of_string s).
Arguments js s%_string.

(** [x?: T | null]. *)
Inductive optional_nullable (A : Type) : Type :=
  | Absent
  | Null
  | Present (a : A).
Arguments Absent {A}.
Arguments Null {A}.
Arguments Present {A} a.

(** Destructuring with the default [= null]: only [undefined] takes the
    default, and the default is [null] itself. *)
Definition default_null {A} (x : optional_nullable A) : option A :=
  match x with
  | Absent | Null => None
  | Present a => Some a
  end.

(** Truthiness ([ToBoolean]) at the types the rail tests. *)
Definition truthy_string (s : jsstring) : bool :=
  match s with [] => false | _ :: _ => true end.

Definition truthy_opt_string (x : option jsstring) : bool :=
  match x with None => false | Some s => truthy_string s end.

Definition truthy_number (n : Z) : bool := negb (n =? 0)%Z.

(** [a ?? b]. *)
Definition nullish_or {A} (a : option A) (b : A) : A :=
  match a with Some v => v | None => b end.

(** The code units matched by [\s], which are also the ones [trim] strips
    (WhiteSpace and LineTerminator). *)
Definition is_ws (c : N) : bool :=
  ((c =? 0x09) || (c =? 0x0A) || (c =? 0x0B) || (c =? 0x0C) || (c =? 0x0D)
   || (c =? 0x20) || (c =? 0xA0) || (c =? 0x1680)
   || ((0x2000 <=? c) && (c <=? 0x200A))
   || (c =? 0x2028) || (c =? 0x2029) || (c =? 0x202F) || (c =? 0x205F)
   || (c =? 0x3000) || (c =? 0xFEFF))%N.

(** [String.prototype.trimStart]. *)
Fixpoint trimStart (s : jsstring) : jsstring :=
  match s with
  | [] => []
  | c :: s' => if is_ws c then trimStart s' else s
  end.

(** [String.prototype.trimEnd]. *)
Fixpoint trimEnd (s : jsstring) : jsstring :=
  match s with
  | [] => []
  | c :: s' =>
      match trimEnd s' with
      | [] => if is_ws c then [] else [c]
      | r => c :: r
      end
  end.

(** [String.prototype.trim]. *)
Definition trim (s : jsstring) : jsstring := trimEnd (trimStart s).

(** Put one more code unit in front of the field being read. *)
Definition cons_field (c : N) (fields : list jsstring) : list jsstring :=
  match fields with
  | f :: fs => (c :: f) :: fs
  | [] => [[c]]
  end.

(** [s.split(/\s+/)]: the fields between the maximal runs of white space.
    [in_sep] says that the code unit before [s] belongs to a separator, so
    that more white space extends that greedy match; the head of the result
    is the field that starts at the current position. White space at either
    end of the string leaves an empty field there, and the empty string
    splits into one empty field. *)
Fixpoint split_go (in_sep : bool) (s : jsstring) : list jsstring :=
  match s with
  | [] => [[]]
  | c :: s' =>
      if is_ws c then
        if in_sep then split_go true s' else [] :: split_go true s'
      else cons_field c (split_go false s')
  end.

Definition split_ws (s : jsstring) : list jsstring := split_go false s.

Section CaseMapping.

(** The upper-case mapping of the code units outside ASCII is the table of
    the Unicode standard, which the runtime provides. *)
Variable upper_ext : N → jsstring.

(** [String.prototype.toUpperCase] on a string of one code unit. *)
Definition toUpperCase1 (c : N) : jsstring :=
  if ((0x61 <=? c) && (c <=? 0x7A))%N then [(c - 0x20)%N]
  else if (c <? 0x80)%N then [c]
  else upper_ext c.

End CaseMapping.

End JS.

Import JS.

(** ** [src/lib/types/club.ts] *)

Record ClubSummary : Type := {
  id : jsstring;
  name : jsstring;
  iconUrl : optional_nullable jsstring;
  unreadCount : option Z;
  mentionCount : option Z;
  accentColor : optional_nullable jsstring;
}.

(** ** Callbacks *)

(** What a call of a callback leaves behind: the state of its owner, and
    whether the call returned or threw. *)
Inductive outcome (S : Type) : Type :=
  | Returned (s : S)
  | Threw (s : S).
Arguments Returned {S} s.
Arguments Threw {S} s.

Definition handler (S : Type) : Type := S → outcome S.

(** [f?.(a)]: an absent callback is not called, and the expression is
    [undefined]. *)
Definition opt_call {S A} (f : option (A → handler S)) (a : A) : handler S :=
  match f with
  | Some g => g a
  | None => λ s, Returned s
  end.

(** [f?.()]. *)
Definition opt_call0 {S} (f : option (handler S)) : handler S :=
  match f with
  | Some g => g
  | None => λ s, Returned s
  end.

(** ** [src/lib/components/layout/ClubRail.svelte] *)

Module ClubRail.

(** The argument of [select]. *)
Record Payload : Type := { payload_id : option jsstring }.

Record Props (S : Type) : Type := {
  clubs : option (list ClubSummary);
  selectedClubId : optional_nullable jsstring;
  showHome : option bool;
  className : option jsstring;
  select : option (Payload → handler S);
  create : option (handler S);
  settings : option (handler S);
}.
Arguments clubs {S} _.
Arguments selectedClubId {S} _.
Arguments showHome {S} _.
Arguments className {S} _.
Arguments select {S} _.
Arguments create {S} _.
Arguments settings {S} _.

(** *** What the template renders *)

(** An argument of [cn(...)]. *)
Inductive class_value : Type :=
  | ClassStr (s : jsstring)
  | ClassFalse
  | ClassUndefined.

Global Instance class_value_eq_dec : EqDecision class_value.
Proof. solve_decision. Defined.

(** The text of the unread badge: the string ["99+"] or the number. *)
Inductive badge_text : Type :=
  | TextStr (s : jsstring)
  | TextNum (n : Z).

Record HomeButton (S : Type) : Type := {
  home_aria_label : jsstring;
  home_class : list class_value;
  home_onclick : handler S;
  home_tooltip : jsstring;
}.
Arguments home_aria_label {S} _.
Arguments home_class {S} _.
Arguments home_onclick {S} _.
Arguments home_tooltip {S} _.

(** [<AvatarImage src=... alt=... />]. *)
Record AvatarImage : Type := { src : jsstring; alt : jsstring }.

Record ClubButton (S : Type) : Type := {
  key : jsstring;
  club_aria_label : jsstring;
  club_onclick : handler S;
  club_class : list class_value;
  avatar_image : option AvatarImage;
  fallback_style : jsstring;
  fallback_text : jsstring;
  unread_badge : option badge_text;
  mention_dot : bool;
  club_tooltip : jsstring;
}.
Arguments key {S} _.
Arguments club_aria_label {S} _.
Arguments club_onclick {S} _.
Arguments club_class {S} _.
Arguments avatar_image {S} _.
Arguments fallback_style {S} _.
Arguments fallback_text {S} _.
Arguments unread_badge {S} _.
Arguments mention_dot {S} _.
Arguments club_tooltip {S} _.

Record ActionButton (S : Type) : Type := {
  action_aria_label : jsstring;
  action_class : list class_value;
  action_onclick : handler S;
  action_tooltip : jsstring;
}.
Arguments action_aria_label {S} _.
Arguments action_class {S} _.
Arguments action_onclick {S} _.
Arguments action_tooltip {S} _.

Record Nav (S : Type) : Type := {
  nav_aria_label : jsstring;
  nav_class : list class_value;
  nav_home : option (HomeButton S);
  nav_clubs : list (ClubButton S);
  nav_create : ActionButton S;
  nav_settings : ActionButton S;
}.
Arguments nav_aria_label {S} _.
Arguments nav_class {S} _.
Arguments nav_home {S} _.
Arguments nav_clubs {S} _.
Arguments nav_create {S} _.
Arguments nav_settings {S} _.

(** The props of [<ClubRail />]: nothing is passed. *)
Definition no_props (S : Type) : Props S :=
  {| clubs := None; selectedClubId := Absent; showHome := None;
     className := None; select := None; create := None; settings := None |}.

Abbreviation Presentation :=
  (option AvatarImage * jsstring * jsstring * option badge_text * bool)%type.

(** What instantiating the component gives: the rail, or the error of the
    [each] block. *)
Inductive rendered (S : Type) : Type :=
  | Rendered (nav : Nav S)
  | EachKeyDuplicate.
Arguments Rendered {S} nav.
Arguments EachKeyDuplicate {S}.

(** The classes of the selection ring. *)
Definition ring_selected : jsstring := js "ring-2 ring-sidebar-ring".
Definition ring_none : jsstring := js "ring-0".

(** An entry is marked selected when the ring is among its classes. *)
Definition marked (cls : list class_value) : bool :=
  bool_decide (ClassStr ring_selected ∈ cls).

(** How many of the given buttons carry the selection ring. *)
Definition marked_count (buttons : list (list class_value)) : nat :=
  length (List.filter marked buttons).

(** [selectedClubId === club.id]. *)
Definition strict_eq (sel : option jsstring) (x : jsstring) : bool :=
  match sel with
  | Some s => bool_decide (s = x)
  | None => false
  end.

Section Component.

Variable upper_ext : N → jsstring.
Context {S : Type}.

(** [s[0]?.toUpperCase()]. *)
Definition first_upper (s : jsstring) : option jsstring :=
  match s with
  | [] => None
  | c :: _ => Some (toUpperCase1 upper_ext c)
  end.

Definition initials (name : jsstring) : jsstring :=
  let p := List.filter truthy_opt_string
             (map first_upper (split_ws (trim name))) in
  nullish_or (mjoin (p !! 0%nat)) (js "?")
    ++ nullish_or (mjoin (p !! 1%nat)) [].

Definition render_home (sel : option jsstring)
    (select : option (Payload → handler S)) : HomeButton S :=
  {| home_aria_label := js "Home";
     home_class :=
       [ ClassStr (js "group relative size-12 rounded-2xl bg-sidebar-accent text-sidebar-foreground grid place-items-center transition-all hover:rounded-xl");
         match sel with
         | None => ClassStr ring_selected
         | Some _ => ClassFalse
         end ];
     home_onclick := opt_call select {| payload_id := None |};
     home_tooltip := js "Home" |}.

Definition render_club (sel : option jsstring)
    (select : option (Payload → handler S)) (club : ClubSummary)
    : ClubButton S :=
  {| key := id club;
     club_aria_label := name club;
     club_onclick := opt_call select {| payload_id := Some (id club) |};
     club_class :=
       [ ClassStr (js "group relative size-12 rounded-2xl bg-card transition-all hover:rounded-xl overflow-hidden ring-offset-2");
         ClassStr (if strict_eq sel (id club) then ring_selected
                   else ring_none) ];
     avatar_image :=
       match iconUrl club with
       | Present url =>
           if truthy_string url
           then Some {| src := url; alt := name club |}
           else None
       | Absent | Null => None
       end;
     fallback_style :=
       match accentColor club with
       | Present color =>
           if truthy_string color
           then js "background:" ++ color
                  ++ js "; color: var(--sidebar-foreground)"
           else []
       | Absent | Null => []
       end;
     fallback_text := initials (name club);
     unread_badge :=
       match unreadCount club with
       | Some n =>
           if truthy_number n
           then Some (if (99 <? n)%Z then TextStr (js "99+")
                      else TextNum n)
           else None
       | None => None
       end;
     mention_dot :=
       match mentionCount club with
       | Some n => truthy_number n
       | None => false
       end;
     club_tooltip := name club |}.

(** The props as the script destructures them:
    [clubs = []], [selectedClubId = null], [showHome = true]. *)
Definition clubs_in (props : Props S) : list ClubSummary :=
  default [] (clubs props).

Definition selected_in (props : Props S) : option jsstring :=
  default_null (selectedClubId props).

Definition showHome_in (props : Props S) : bool :=
  default true (showHome props).

(** The markup of the template: one entry per club, each with the key the
    [each] block is given for it. Whether the block accepts these keys is
    decided by [mount] below. *)
Definition render (props : Props S) : Nav S :=
  {| nav_aria_label := js "Club navigation";
     nav_class :=
       [ ClassStr (js "bg-sidebar text-sidebar-foreground flex flex-col items-center gap-3 py-3 border-r border-sidebar-border");
         ClassStr (js "w-16 min-w-16 h-svh");
         match className props with
         | Some c => ClassStr c
         | None => ClassUndefined
         end ];
     nav_home :=
       if showHome_in props
       then Some (render_home (selected_in props) (select props))
       else None;
     nav_clubs :=
       map (render_club (selected_in props) (select props))
         (clubs_in props);
     nav_create :=
       {| action_aria_label := js "Create club";
          action_class :=
            [ ClassStr (js "group relative size-12 rounded-2xl bg-muted text-muted-foreground grid place-items-center transition-all hover:rounded-xl") ];
          action_onclick := opt_call0 (create props);
          action_tooltip := js "Create a club" |};
     nav_settings :=
       {| action_aria_label := js "Settings";
          action_class :=
            [ ClassStr (js "group relative size-10 rounded-xl bg-muted text-muted-foreground grid place-items-center transition-all hover:rounded-lg mb-1") ];
          action_onclick := opt_call0 (settings props);
          action_tooltip := js "Settings" |} |}.

(** [{#each clubs as club (club.id)}] is a keyed block: it takes the
    entries when their keys are pairwise different. With a repeated key the
    runtime throws [each_key_duplicate] (built without that check it does
    not show one entry per club either), so the component is not
    rendered. *)
Definition mount (props : Props S) : rendered S :=
  if decide (NoDup (key <$> nav_clubs (render props)))
  then Rendered (render props)
  else EachKeyDuplicate.

(** The class lists of the buttons of a rendered rail, top to bottom. *)
Definition button_classes (nav : Nav S) : list (list class_value) :=
  match nav_home nav with
  | Some h => [home_class h]
  | None => []
  end
  ++ map club_class (nav_clubs nav)
  ++ [action_class (nav_create nav); action_class (nav_settings nav)].

(** What a club entry shows besides its selection ring: the icon, the
    fallback glyph and its background, the unread badge, the mention dot. *)
Definition presentation (e : ClubButton S) : Presentation :=
  (avatar_image e, fallback_text e, fallback_style e, unread_badge e,
   mention_dot e).

End Component.

End ClubRail.

(** ** [src/routes/app/+layout.svelte] *)

Module Shell.

(** The clubs the layout declares. *)
Definition demo_club (i n color : string) (unread mention : option Z)
    : ClubSummary :=
  {| id := js i; name := js n; iconUrl := Absent;
     unreadCount := unread; mentionCount := mention;
     accentColor := Present (js color) |}.

Definition clubs : list ClubSummary :=
  [ demo_club "homebrew" "Homebrew Guild" "#fbff86" (Some 3%Z) None;
    demo_club "synthwave" "Synthwave Cafe" "#905ea9" None None;
    demo_club "devs" "Dev Collective" "#30e1b9" None (Some 1%Z);
    demo_club "pixels" "Pixel Artists" "#fbb954" None None;
    demo_club "gamers" "Night Gamers" "#4d9be6" None None;
    demo_club "plants" "Plant Parents" "#91db69" None None ].

(** The state of a layout instance: the collection it was set up with and
    the reactive [selectedClubId] ([None] is [null]). *)
Record State : Type := {
  st_clubs : list ClubSummary;
  selectedClubId : option jsstring;
}.

(** The script block, for a given [clubs] constant:
    [$state(clubs[0]?.id ?? null)]. *)
Definition init (clubs : list ClubSummary) : State :=
  {| st_clubs := clubs;
     selectedClubId :=
       match id <$> clubs !! 0%nat with
       | Some i => Some i
       | None => None
       end |}.

Definition mount : State := init clubs.

Definition handleSelect (payload : ClubRail.Payload) : handler State :=
  λ st, Returned {| st_clubs := st_clubs st;
                    selectedClubId := ClubRail.payload_id payload |}.

(** [<ClubRail {clubs} {selectedClubId} select={handleSelect} class="shrink-0" />] *)
Definition rail_props (st : State) : ClubRail.Props State :=
  {| ClubRail.clubs := Some (st_clubs st);
     ClubRail.selectedClubId :=
       match selectedClubId st with
       | Some i => Present i
       | None => Null
       end;
     ClubRail.showHome := None;
     ClubRail.className := Some (js "shrink-0");
     ClubRail.select := Some handleSelect;
     ClubRail.create := None;
     ClubRail.settings := None |}.

Definition rail (upper_ext : N → jsstring) (st : State) : ClubRail.Nav State :=
  ClubRail.render upper_ext (rail_props st).

End Shell.

(** ** The wording of the specification *)

Module Spec.

(** Skip the rest of a token: up to the next white space. *)
Fixpoint skip_token (s : jsstring) : jsstring :=
  match s with
  | [] => []
  | c :: s' => if is_ws c then s else skip_token s'
  end.

(** Empty or white space only. *)
Definition blank (s : jsstring) : Prop := Forall (λ c, is_ws c = true) s.

(** The two halves of a character outside the Basic Multilingual Plane. *)
Definition is_high_surrogate (c : N) : bool :=
  ((0xD800 <=? c) && (c <=? 0xDBFF))%N.

Definition is_low_surrogate (c : N) : bool :=
  ((0xDC00 <=? c) && (c <=? 0xDFFF))%N.

(** The first letter of a string: its first character, which is one code
    unit, or the two code units of a surrogate pair. *)
Definition first_letter (s : jsstring) : jsstring :=
  match s with
  | [] => []
  | [c] => [c]
  | h :: l :: _ =>
      if is_high_surrogate h && is_low_surrogate l then [h; l] else [h]
  end.

(** The first letter of the first white-space-separated token of [s], and
    what follows that token; [None] when [s] holds no token. *)
Definition first_token (s : jsstring) : option (jsstring * jsstring) :=
  match trimStart s with
  | [] => None
  | c :: s' => Some (first_letter (c :: s'), skip_token s')
  end.

Section UpperCase.

(** The upper-case forms the runtime gives: of a code unit outside ASCII,
    and of a character written as a surrogate pair. *)
Variable upper_ext : N → jsstring.
Variable upper_pair : N → N → jsstring.

Definition upper_letter (letter : jsstring) : jsstring :=
  match letter with
  | [c] => toUpperCase1 upper_ext c
  | [h; l] => upper_pair h l
  | _ => letter
  end.

(** The fallback glyph as the specification words it: the first letter of
    the first token, then the first letter of the second token if there is
    one, upper-cased; a question mark when there is no token at all. *)
Definition initials_spec (name : jsstring) : jsstring :=
  match first_token name with
  | None => js "?"
  | Some (l1, rest) =>
      match first_token rest with
      | None => upper_letter l1
      | Some (l2, _) => upper_letter l1 ++ upper_letter l2
      end
  end.

End UpperCase.

(** The first letters of the first two tokens of a name. *)
Definition initial_letters (name : jsstring) : list jsstring :=
  match first_token name with
  | None => []
  | Some (l1, rest) =>
      l1 :: match first_token rest with
            | None => []
            | Some (l2, _) => [l2]
            end
  end.

(** Both of them are characters of one code unit. *)
Definition letters_are_units (name : jsstring) : Prop :=
  Forall (λ letter, length letter = 1%nat) (initial_letters name).

End Spec.

(** ** What [initials] computes, code unit by code unit *)

Module CodeUnits.

(** The first code unit of the first white-space-separated token of [s],
    and what follows that token; [None] when [s] holds no token. *)
Definition first_unit (s : jsstring) : option (N * jsstring) :=
  match trimStart s with
  | [] => None
  | c :: s' => Some (c, Spec.skip_token s')
  end.

(** The upper-case form of the first code unit of the first token, then
    that of the first code unit of the second token if there is one; a
    question mark when there is no token at all. *)
Definition initials_by_units (upper_ext : N → jsstring) (name : jsstring)
    : jsstring :=
  match first_unit name with
  | None => js "?"
  | Some (c1, rest) =>
      match first_unit rest with
      | None => toUpperCase1 upper_ext c1
      | Some (c2, _) =>
          toUpperCase1 upper_ext c1 ++ toUpperCase1 upper_ext c2
      end
  end.

End CodeUnits.

(** ** An owner that records the calls it receives *)

Module Recorder.

Inductive call : Type :=
  | CallSelect (p : ClubRail.Payload)
  | CallCreate
  | CallSettings.

Definition record (c : call) : handler (list call) :=
  λ log, Returned (log ++ [c]).

(** Props with all three callbacks given, each recording its call. *)
Definition props (clubs : option (list ClubSummary))
    (sel : optional_nullable jsstring) (showHome : option bool)
    : ClubRail.Props (list call) :=
  {| ClubRail.clubs := clubs;
     ClubRail.selectedClubId := sel;
     ClubRail.showHome := showHome;
     ClubRail.className := None;
     ClubRail.select := Some (λ p, record (CallSelect p));
     ClubRail.create := Some (record CallCreate);
     ClubRail.settings := Some (record CallSettings) |}.

End Recorder.

Import ClubRail.

(** ** The rail in use *)

Module Session.

(** The buttons of the rail a user may activate; a club entry is named by
    its position in the list. *)
Inductive target : Type :=
  | OnHome
  | OnClub (i : nat)
  | OnCreate
  | OnSettings.

(** The [onclick] of a button, if the rail renders that button. *)
Definition onclick_of {S} (nav : Nav S) (t : target) : option (handler S) :=
  match t with
  | OnHome => home_onclick <$> nav_home nav
  | OnClub i => club_onclick <$> nav_clubs nav !! i
  | OnCreate => Some (action_onclick (nav_create nav))
  | OnSettings => Some (action_onclick (nav_settings nav))
  end.

(** Activating a target runs the handler of its button; where there is no
    such button nothing runs. *)
Definition click {S} (nav : Nav S) (t : target) : handler S :=
  match onclick_of nav t with
  | Some h => h
  | None => λ s, Returned s
  end.

Definition state_of {S} (o : outcome S) : S :=
  match o with
  | Returned s | Threw s => s
  end.

(** One activation in the layout: the handler runs on the state the rail
    was rendered from, and the rail is rendered again from the result. *)
Definition interact (upper_ext : N → jsstring) (st : Shell.State)
    (t : target) : Shell.State :=
  state_of (click (Shell.rail upper_ext st) t st).

(** A sequence of activations, from left to right. *)
Definition run (upper_ext : N → jsstring) (st : Shell.State)
    (ts : list target) : Shell.State :=
  foldl (interact upper_ext) st ts.

(** The selection is null or the id of one of the clubs. *)
Definition selection_known (st : Shell.State) : Prop :=
  Shell.selectedClubId st = None
  ∨ ∃ club, club ∈ Shell.st_clubs st
            ∧ Shell.selectedClubId st = Some (id club).

End Session.

(** What a rendered rail shows, its click handlers left out. *)
Definition markup {S} (nav : Nav S) :=
  (nav_aria_label nav, nav_class nav,
   (λ h, (home_aria_label h, home_class h, home_tooltip h)) <$> nav_home nav,
   (λ e, (key e, club_aria_label e, club_class e, presentation e,
          club_tooltip e)) <$> nav_clubs nav,
   (action_aria_label (nav_create nav), action_class (nav_create nav),
    action_tooltip (nav_create nav)),
   (action_aria_label (nav_settings nav), action_class (nav_settings nav),
    action_tooltip (nav_settings nav))).

(** ASCII code units, the lower-case letters among them. *)
Definition is_ascii (c : N) : bool := (c <? 0x80)%N.
Definition is_lower (c : N) : bool := ((0x61 <=? c) && (c <=? 0x7A))%N.

(** The check that a code unit is white space, or has as its upper-case
    form one ASCII code unit that is neither a lower-case letter nor white
    space. *)
Definition upper_ascii_ok (upper_ext : N → jsstring) (c : N) : bool :=
  is_ws c
  || match toUpperCase1 upper_ext c with
     | [c'] => is_ascii c' && negb (is_lower c') && negb (is_ws c')
     | _ => false
     end.

(** ** Data for the examples *)

(** The identity outside ASCII: a case mapping to run the examples with. *)
Definition upper_ascii_only (c : N) : jsstring := [c].

(** Characters written as surrogate pairs left as they are. *)
Definition pair_unchanged (h l : N) : jsstring := [h; l].

(** A name that starts with U+1F600, written as the pair D83D DE00, then a
    space and "party". *)
Definition grin_party : jsstring := [0xD83D; 0xDE00]%N ++ js " party".

(** A club with the given counters, for the examples. *)
Definition counted (unread mention : option Z) : ClubSummary :=
  {| id := js "c"; name := js "Club"; iconUrl := Absent;
     unreadCount := unread; mentionCount := mention; accentColor := Absent |}.



(** The clubs of the layout passed without any callback. *)
Definition silent_props : Props Shell.State :=
  {| clubs := Some Shell.clubs; selectedClubId := Null; showHome := None;
     className := None; select := None; create := None; settings := None |}.

(** The clubs and the props of the end-to-end scenario. *)
Definition scenario_clubs : list ClubSummary :=
  [ {| id := js "homebrew"; name := js "Homebrew Guild"; iconUrl := Absent;
       unreadCount := Some 3%Z; mentionCount := None;
       accentColor := Absent |};
    {| id := js "devs"; name := js "Dev Collective"; iconUrl := Absent;
       unreadCount := None; mentionCount := Some 1%Z;
       accentColor := Absent |} ].

Definition scenario (sel : string) : Nav (list Recorder.call) :=
  render upper_ascii_only
    (Recorder.props (Some scenario_clubs) (Present (js sel)) (Some true)).

(** The first code units of the non-empty fields of a split. *)
Abbreviation firsts := (omap (head (A := N))).

(** * Properties *)

(** ** Strings *)

Example split_ws_inner : split_ws (js "a  b") = [js "a"; js "b"].
Proof. reflexivity. Qed.

Example split_ws_ends : split_ws (js " a ") = [[]; js "a"; []].
Proof. reflexivity. Qed.

Example trim_both : trim (js "  a b   ") = js "a b".
Proof. reflexivity. Qed.


Lemma firsts_cons_field c fields :
  firsts (cons_field c fields) = c :: firsts (tail fields).
Proof. by destruct fields. Qed.

Lemma tail_cons_field c fields : tail (cons_field c fields) = tail fields.
Proof. by destruct fields. Qed.

(** Whether the split starts inside a separator only decides if an empty
    field is put in front. *)
Lemma firsts_split_go_flag s :
  firsts (split_go true s) = firsts (split_go false s).
Proof. destruct s as [|c s]; simpl; [done|]. by destruct (is_ws c). Qed.

Lemma trimEnd_cons_token c s :
  is_ws c = false → trimEnd (c :: s) = c :: trimEnd s.
Proof. intros Hc. simpl. rewrite Hc. by destruct (trimEnd s). Qed.

Lemma trimStart_head s c r : trimStart s = c :: r → is_ws c = false.
Proof.
  induction s as [|d s IH]; simpl; [done|].
  destruct (is_ws d) eqn:Hd; [done|]. by intros [= <- _].
Qed.

(** Trailing white space only adds an empty last field. *)
Lemma firsts_split_trimEnd s :
  (∀ b, firsts (split_go b (trimEnd s)) = firsts (split_go b s))
  ∧ firsts (tail (split_go false (trimEnd s)))
    = firsts (tail (split_go false s)).
Proof.
  induction s as [|c s [IH1 IH2]]; [done|].
  destruct (is_ws c) eqn:Hc.
  - assert (Hsplit : ∀ b t, firsts (split_go b (c :: t))
                            = firsts (split_go true t)).
    { intros b t. simpl. rewrite Hc. by destruct b. }
    assert (Htail : ∀ t, tail (split_go false (c :: t)) = split_go true t).
    { intros t. simpl. by rewrite Hc. }
    rewrite Htail. setoid_rewrite Hsplit.
    rewrite <-(IH1 true).
    change (trimEnd (c :: s))
      with (match trimEnd s with
            | [] => if is_ws c then [] else [c]
            | r => c :: r
            end).
    rewrite Hc. destruct (trimEnd s) as [|d r].
    + split; [by intros []|done].
    + split; [intros b; apply Hsplit|by rewrite Htail].
  - rewrite trimEnd_cons_token by done. simpl. rewrite Hc.
    rewrite !firsts_cons_field, !tail_cons_field, IH2. done.
Qed.

(** Leading white space only adds an empty first field. *)
Lemma firsts_split_trimStart s :
  firsts (split_ws (trimStart s)) = firsts (split_ws s).
Proof.
  unfold split_ws. induction s as [|c s IH]; [done|].
  simpl. destruct (is_ws c) eqn:Hc; [|by simpl; rewrite Hc].
  simpl. by rewrite firsts_split_go_flag.
Qed.

Lemma firsts_split_trim s : firsts (split_ws (trim s)) = firsts (split_ws s).
Proof.
  unfold trim, split_ws.
  rewrite (proj1 (firsts_split_trimEnd _)). apply firsts_split_trimStart.
Qed.

(** After the field that is being read come the fields of what follows it. *)
Lemma firsts_tail_split s :
  firsts (tail (split_go false s)) = firsts (split_ws (Spec.skip_token s)).
Proof.
  unfold split_ws. induction s as [|c s IH]; [done|].
  simpl. destruct (is_ws c) eqn:Hc; simpl.
  - by rewrite Hc.
  - by rewrite tail_cons_field.
Qed.

(** The fields of a string, token by token. *)
Lemma firsts_split_first_token s :
  firsts (split_ws s)
  = match CodeUnits.first_unit s with
    | None => []
    | Some (c, rest) => c :: firsts (split_ws rest)
    end.
Proof.
  rewrite <-firsts_split_trimStart. unfold CodeUnits.first_unit.
  destruct (trimStart s) as [|c r] eqn:Hs; [done|].
  apply trimStart_head in Hs. unfold split_ws. simpl. rewrite Hs.
  by rewrite firsts_cons_field, firsts_tail_split.
Qed.

Lemma blank_trimStart s : Spec.blank s → trimStart s = [].
Proof. induction 1 as [|c s Hc _ IH]; simpl; [done|]. by rewrite Hc. Qed.

(** [CodeUnits.first_unit] finds the token of any string laid out as white
    space, a token, and a rest that is empty or starts with white space. *)
Lemma first_unit_layout (w t r : jsstring) c :
  Spec.blank w →
  Forall (λ d, is_ws d = false) (c :: t) →
  (∀ d r', r = d :: r' → is_ws d = true) →
  CodeUnits.first_unit (w ++ c :: t ++ r) = Some (c, r).
Proof.
  intros Hw Ht Hr. apply Forall_cons in Ht as [Hc Ht].
  unfold CodeUnits.first_unit.
  assert (Hstart : trimStart (w ++ c :: t ++ r) = c :: t ++ r).
  { induction Hw as [|d w Hd _ IH]; simpl; [by rewrite Hc|by rewrite Hd]. }
  rewrite Hstart. clear Hstart.
  assert (Hskip : Spec.skip_token (t ++ r) = r); [|by rewrite Hskip].
  induction Ht as [|d t Hd _ IH]; simpl; [|by rewrite Hd].
  destruct r as [|d r']; [done|]. simpl. by rewrite (Hr d r').
Qed.

Section Initials.

Variable upper_ext : N → jsstring.

(** No code unit has an empty upper-case form. *)
Hypothesis upper_ext_nonempty : ∀ c, upper_ext c ≠ [].

Lemma toUpperCase1_nonempty c : truthy_string (toUpperCase1 upper_ext c) = true.
Proof.
  unfold toUpperCase1. repeat case_match; try done.
  specialize (upper_ext_nonempty c). by destruct (upper_ext c).
Qed.

(** [filter(Boolean)] drops exactly the [undefined] of the empty fields. *)
Lemma filter_first_upper fields :
  List.filter truthy_opt_string (map (ClubRail.first_upper upper_ext) fields)
  = map (λ c, Some (toUpperCase1 upper_ext c)) (firsts fields).
Proof.
  induction fields as [|[|c f] fields IH]; simpl; [done..|].
  by rewrite toUpperCase1_nonempty, IH.
Qed.

Lemma initials_by_first_units name :
  ClubRail.initials upper_ext name = CodeUnits.initials_by_units upper_ext name.
Proof.
  unfold ClubRail.initials, CodeUnits.initials_by_units.
  rewrite filter_first_upper, firsts_split_trim, firsts_split_first_token.
  destruct (CodeUnits.first_unit name) as [[c1 rest]|]; [|done].
  rewrite firsts_split_first_token.
  destruct (CodeUnits.first_unit rest) as [[c2 rest']|]; simpl; [done|].
  by rewrite app_nil_r.
Qed.

Lemma initials_blank name :
  Spec.blank name → ClubRail.initials upper_ext name = js "?".
Proof.
  intros Hb. rewrite initials_by_first_units. unfold CodeUnits.initials_by_units, CodeUnits.first_unit.
  by rewrite blank_trimStart.
Qed.

End Initials.

(** ** The fallback glyph *)

Lemma first_letter_unit c s :
  length (Spec.first_letter (c :: s)) = 1%nat → Spec.first_letter (c :: s) = [c].
Proof.
  destruct s as [|d s]; simpl; [done|].
  by destruct (Spec.is_high_surrogate c && Spec.is_low_surrogate d).
Qed.

(** Where the first letters of the first two tokens are single code units,
    reading code units is reading letters. *)
Lemma initials_by_units_spec (upper_ext : N → jsstring)
    (upper_pair : N → N → jsstring) name :
  Spec.letters_are_units name →
  CodeUnits.initials_by_units upper_ext name
  = Spec.initials_spec upper_ext upper_pair name.
Proof.
  unfold Spec.letters_are_units, Spec.initial_letters,
    CodeUnits.initials_by_units, Spec.initials_spec, CodeUnits.first_unit,
    Spec.first_token.
  destruct (trimStart name) as [|c1 s1]; [done|].
  destruct (trimStart (Spec.skip_token s1)) as [|c2 s2].
  - intros [H1 _]%Forall_cons. by rewrite (first_letter_unit _ _ H1).
  - intros [H1 [H2 _]%Forall_cons]%Forall_cons.
    by rewrite (first_letter_unit _ _ H1), (first_letter_unit _ _ H2).
Qed.

(** C1. Whatever the upper-case tables of the runtime (no code unit has an
    empty upper-case form), [initials] returns the upper-cased first letter
    of the first white-space-separated token followed by the upper-cased
    first letter of the second token if there is one, for every name in
    which these letters are single code units; it returns a question mark
    when the name is empty or white space only; and the four examples of
    the specification evaluate as stated. But [s[0]] is a code unit, not a
    letter: for the name that starts with U+1F600 and goes on with
    " party", [initials] makes the glyph from the first half of the
    surrogate pair, where the first letter of the token is the pair. *)
Theorem initials_take_a_code_unit_for_a_letter
    (upper_ext : N → jsstring) (upper_pair : N → N → jsstring) :
  (∀ c, upper_ext c ≠ []) →
  (∀ name,
     Spec.letters_are_units name →
     initials upper_ext name = Spec.initials_spec upper_ext upper_pair name)
  ∧ (∀ name, Spec.blank name → initials upper_ext name = js "?")
  ∧ initials upper_ext (js "Dev Collective") = js "DC"
  ∧ initials upper_ext (js "Homebrew") = js "H"
  ∧ initials upper_ext (js "   ") = js "?"
  ∧ initials upper_ext (js "midnight sun club") = js "MS"
  ∧ initials upper_ext grin_party = upper_ext 0xD83D%N ++ js "P"
  ∧ Spec.initials_spec upper_ext upper_pair grin_party
    = upper_pair 0xD83D%N 0xDE00%N ++ js "P"
  ∧ Spec.initial_letters grin_party = [[0xD83D; 0xDE00]%N; js "p"].
Proof.
  intros Hne. split; [|split].
  - intros name Hunits. rewrite initials_by_first_units by done.
    by apply initials_by_units_spec.
  - apply initials_blank, Hne.
  - repeat split; try reflexivity.
    by rewrite initials_by_first_units.
Qed.

Lemma initials_take_a_code_unit_for_a_letter_witness :
  initials upper_ascii_only (js "Dev Collective")
  = Spec.initials_spec upper_ascii_only pair_unchanged (js "Dev Collective")
  ∧ initials upper_ascii_only grin_party = [0xD83D; 0x50]%N
  ∧ Spec.initials_spec upper_ascii_only pair_unchanged grin_party
    = [0xD83D; 0xDE00; 0x50]%N
  ∧ initials upper_ascii_only grin_party
    ≠ Spec.initials_spec upper_ascii_only pair_unchanged grin_party.
Proof.
  destruct (initials_take_a_code_unit_for_a_letter upper_ascii_only
              pair_unchanged)
    as (Hagree & _ & _ & _ & _ & _ & Hcode & Hspec & _).
  { intros c. unfold upper_ascii_only. discriminate. }
  split; [|split; [exact Hcode|split; [exact Hspec|]]].
  - apply Hagree. unfold Spec.letters_are_units. simpl.
    repeat constructor.
  - rewrite Hcode, Hspec. discriminate.
Defined.

(** ** The rendered rail *)

Section Rail.

Variable upper_ext : N → jsstring.
Context {S : Type}.
Implicit Types (props : Props S) (club : ClubSummary) (e : ClubButton S).

(** The [each] block renders the clubs one by one, in their order. *)
Lemma nav_clubs_lookup props i :
  nav_clubs (render upper_ext props) !! i
  = render_club upper_ext (selected_in props) (select props)
      <$> clubs_in props !! i.
Proof. apply list_lookup_fmap. Qed.


Lemma marked_home sel f :
  marked (home_class (render_home (S := S) sel f))
  = bool_decide (sel = None).
Proof. by destruct sel. Qed.

Lemma marked_club sel f club :
  marked (club_class (render_club (S := S) upper_ext sel f club))
  = strict_eq sel (id club).
Proof.
  unfold render_club; simpl. by destruct (strict_eq sel (id club)).
Qed.

Lemma strict_eq_true sel x : strict_eq sel x = true ↔ sel = Some x.
Proof.
  destruct sel as [y|]; simpl; [|done].
  rewrite bool_decide_eq_true. naive_solver.
Qed.

Lemma unread_badge_shown sel f club :
  is_Some (unread_badge (render_club (S := S) upper_ext sel f club))
  ↔ ∃ n, unreadCount club = Some n ∧ n ≠ 0%Z.
Proof.
  simpl. destruct (unreadCount club) as [n|]; unfold truthy_number.
  - destruct (Z.eqb_spec n 0); simpl.
    + split; [by intros [? ?]|]. intros (m & [= <-] & Hm). done.
    + split; [eauto|]. intros _. eauto.
  - split; [by intros [? ?]|]. by intros (m & ? & _).
Qed.

Lemma unread_badge_text sel f club n :
  unreadCount club = Some n → n ≠ 0%Z →
  unread_badge (render_club (S := S) upper_ext sel f club)
  = Some (if (99 <? n)%Z then TextStr (js "99+") else TextNum n).
Proof.
  intros Hn Hnz. simpl. rewrite Hn. unfold truthy_number.
  by destruct (Z.eqb_spec n 0).
Qed.

Lemma mention_dot_shown sel f club :
  mention_dot (render_club (S := S) upper_ext sel f club) = true
  ↔ ∃ m, mentionCount club = Some m ∧ m ≠ 0%Z.
Proof.
  simpl. destruct (mentionCount club) as [m|]; unfold truthy_number.
  - destruct (Z.eqb_spec m 0); simpl.
    + split; [done|]. intros (k & [= <-] & Hk). done.
    + split; [eauto|done].
  - split; [done|]. by intros (m & ? & _).
Qed.

End Rail.

(** ** Badges *)

(** C2. The entry of every club of the rendered list shows the unread badge
    exactly when [unreadCount] is present and not zero, reading ["99+"]
    exactly when the count is above 99 and the count itself otherwise; it
    shows the mention dot exactly when [mentionCount] is present and not
    zero; and each of the four combinations of the two indicators is
    rendered by some club. *)
Theorem badges_follow_their_own_counter (upper_ext : N → jsstring) :
  (∀ S (props : Props S) i club,
     clubs_in props !! i = Some club →
     ∃ e, nav_clubs (render upper_ext props) !! i = Some e
       ∧ (is_Some (unread_badge e)
          ↔ ∃ n, unreadCount club = Some n ∧ n ≠ 0%Z)
       ∧ (unread_badge e = Some (TextStr (js "99+"))
          ↔ ∃ n, unreadCount club = Some n ∧ (n > 99)%Z)
       ∧ (∀ n, unreadCount club = Some n → n ≠ 0%Z → (n ≤ 99)%Z →
            unread_badge e = Some (TextNum n))
       ∧ (mention_dot e = true
          ↔ ∃ m, mentionCount club = Some m ∧ m ≠ 0%Z))
  ∧ (∀ badge dot : bool, ∃ club,
       ∀ S (props : Props S) i,
         clubs_in props !! i = Some club →
         ∃ e, nav_clubs (render upper_ext props) !! i = Some e
           ∧ bool_decide (is_Some (unread_badge e)) = badge
           ∧ mention_dot e = dot).
Proof.
  split.
  - intros S props i club Hi. rewrite nav_clubs_lookup, Hi. simpl.
    eexists; split; [done|].
    split; [apply unread_badge_shown|].
    split; [|split; [|apply mention_dot_shown]].
    + split.
      * intros Hb. pose proof (unread_badge_shown upper_ext (S := S)
          (selected_in props) (select props) club) as [Hs _].
        destruct Hs as (n & Hn & Hnz); [by rewrite Hb; eauto|].
        rewrite (unread_badge_text _ _ _ _ n Hn Hnz) in Hb.
        exists n. split; [done|]. destruct (Z.ltb_spec 99 n); [lia|done].
      * intros (n & Hn & Hgt).
        rewrite (unread_badge_text _ _ _ _ n Hn) by lia.
        destruct (Z.ltb_spec 99 n); [done|lia].
    + intros n Hn Hnz Hle. rewrite (unread_badge_text _ _ _ _ n Hn Hnz).
      destruct (Z.ltb_spec 99 n); [lia|done].
  - intros badge dot.
    exists (counted (if badge then Some 3%Z else None)
                    (if dot then Some 1%Z else None)).
    intros S props i Hi. rewrite nav_clubs_lookup, Hi. simpl.
    eexists; split; [done|]. by destruct badge, dot.
Qed.

Lemma badges_follow_their_own_counter_witness :
  ∃ e, nav_clubs (render upper_ascii_only
                    (Recorder.props (Some [counted (Some 150%Z) (Some 1%Z)])
                       Null None)) !! 0%nat = Some e
    ∧ unread_badge e = Some (TextStr (js "99+"))
    ∧ mention_dot e = true.
Proof.
  destruct (proj1 (badges_follow_their_own_counter upper_ascii_only)
              (list Recorder.call)
              (Recorder.props (Some [counted (Some 150%Z) (Some 1%Z)])
                 Null None)
              0%nat (counted (Some 150%Z) (Some 1%Z)) eq_refl)
    as (e & He & _ & Hcap & _ & Hdot).
  exists e. split; [exact He|]. split.
  - apply Hcap. exists 150%Z. split; [reflexivity|lia].
  - apply Hdot. exists 1%Z. split; [reflexivity|lia].
Defined.

(** ** Selection *)

Section Selection.

Variable upper_ext : N → jsstring.
Context {S : Type}.
Implicit Types (props : Props S) (club : ClubSummary).

Lemma no_club_marked_if_unknown sel f (l : list ClubSummary) :
  (∀ x, sel = Some x → x ∉ id <$> l) →
  marked_count (map club_class (map (render_club (S := S) upper_ext sel f) l))
  = 0%nat.
Proof.
  unfold marked_count.
  induction l as [|c l IH]; intros Hsel; [done|].
  cbn [map List.filter]. rewrite marked_club.
  destruct (strict_eq sel (id c)) eqn:Heq.
  - apply strict_eq_true in Heq. destruct (Hsel _ Heq).
    rewrite fmap_cons. apply elem_of_cons. by left.
  - apply IH. intros x Hx. specialize (Hsel x Hx).
    rewrite fmap_cons in Hsel. by apply not_elem_of_cons in Hsel as [_ ?].
Qed.

Lemma one_club_marked_at_most sel f (l : list ClubSummary) :
  NoDup (id <$> l) →
  marked_count (map club_class (map (render_club (S := S) upper_ext sel f) l))
  ≤ 1.
Proof.
  induction l as [|c l IH]; intros Hnd; [cbv; lia|].
  apply NoDup_cons in Hnd as [Hc Hnd].
  unfold marked_count in *.
  cbn [map List.filter]. rewrite marked_club.
  destruct (strict_eq sel (id c)) eqn:Heq; [|by apply IH].
  apply strict_eq_true in Heq. cbn [length].
  fold (marked_count (map club_class
          (map (render_club (S := S) upper_ext sel f) l))).
  rewrite no_club_marked_if_unknown; [lia|].
  intros x Hx. rewrite Heq in Hx. by injection Hx as <-.
Qed.

Lemma marked_count_app (l1 l2 : list (list class_value)) :
  marked_count (l1 ++ l2) = (marked_count l1 + marked_count l2)%nat.
Proof. unfold marked_count. by rewrite List.filter_app, length_app. Qed.

Lemma marked_count_rail props :
  marked_count (button_classes (render upper_ext props))
  = ((if showHome_in props
      then if bool_decide (selected_in props = None) then 1 else 0
      else 0)
     + marked_count (map club_class (nav_clubs (render upper_ext props))))%nat.
Proof.
  unfold button_classes. rewrite !marked_count_app.
  assert (Hact : marked_count
            [action_class (nav_create (render upper_ext props));
             action_class (nav_settings (render upper_ext props))] = 0%nat)
    by reflexivity.
  rewrite Hact, Nat.add_0_r. f_equal.
  unfold render; cbn [nav_home].
  destruct (showHome_in props); [|done].
  by destruct (selected_in props).
Qed.

End Selection.

(** The keys of the entries are the ids of the clubs, in their order. *)
Lemma render_keys (upper_ext : N → jsstring) {S : Type} (props : Props S) :
  key <$> nav_clubs (render upper_ext props) = id <$> default [] (clubs props).
Proof.
  unfold render; cbn [nav_clubs]. rewrite <-list_fmap_compose.
  by apply list_fmap_ext.
Qed.

(** With pairwise different ids the [each] block takes the entries. *)
Lemma mount_rendered (upper_ext : N → jsstring) {S : Type} (props : Props S) :
  NoDup (id <$> default [] (clubs props)) →
  mount upper_ext props = Rendered (render upper_ext props).
Proof.
  intros Hnd. unfold mount. rewrite render_keys. by rewrite decide_True.
Qed.

(** With a repeated id it does not. *)
Lemma mount_duplicate (upper_ext : N → jsstring) {S : Type} (props : Props S) :
  ¬ NoDup (id <$> default [] (clubs props)) →
  mount upper_ext props = EachKeyDuplicate.
Proof.
  intros Hnd. unfold mount. rewrite render_keys. by rewrite decide_False.
Qed.

(** C3. When the ids of the clubs are pairwise different, the rail is
    rendered and at most one of its buttons carries the selection ring;
    the Home entry carries it exactly when the [selectedClubId] prop is
    null (or left out, which defaults to null), and the entry of a club
    exactly when the prop is the id of that club. *)
Theorem selection_marks_at_most_one_entry
    (upper_ext : N → jsstring) {S : Type} (props : Props S) :
  NoDup (id <$> default [] (clubs props)) →
  ∃ nav,
    mount upper_ext props = Rendered nav
    ∧ marked_count (button_classes nav) ≤ 1
    ∧ (∀ h, nav_home nav = Some h →
         (marked (home_class h) = true
          ↔ selectedClubId props = Null ∨ selectedClubId props = Absent))
    ∧ (∀ i club, default [] (clubs props) !! i = Some club →
         ∃ e, nav_clubs nav !! i = Some e
           ∧ key e = id club
           ∧ (marked (club_class e) = true
              ↔ selectedClubId props = Present (id club))).
Proof.
  intros Hnd. exists (render upper_ext props).
  split; [by apply mount_rendered|].
  assert (Hsel : ∀ x, selected_in props = Some x
                      ↔ selectedClubId props = Present x).
  { intros x. unfold selected_in.
    destruct (selectedClubId props); simpl; split; congruence. }
  assert (Hnull : selected_in props = None
                  ↔ selectedClubId props = Null ∨ selectedClubId props = Absent).
  { unfold selected_in.
    destruct (selectedClubId props); simpl; intuition congruence. }
  split; [|split].
  - rewrite marked_count_rail. unfold render; cbn [nav_clubs].
    destruct (selected_in props) as [x|] eqn:Hx.
    + rewrite bool_decide_eq_false_2 by done.
      pose proof (one_club_marked_at_most upper_ext (S := S) (Some x)
                    (select props) _ Hnd).
      unfold clubs_in. destruct (showHome_in props); simpl; lia.
    + rewrite no_club_marked_if_unknown by done.
      destruct (showHome_in props); simpl; lia.
  - intros h. unfold render; cbn [nav_home].
    destruct (showHome_in props); [|done]. intros [= <-].
    by rewrite marked_home, bool_decide_eq_true.
  - intros i club Hi. rewrite nav_clubs_lookup. unfold clubs_in.
    rewrite Hi. simpl. eexists; split; [done|]. split; [done|].
    rewrite <-Hsel, <-strict_eq_true.
    change (marked (club_class (render_club upper_ext (selected_in props)
                                  (select props) club)) = true
            ↔ strict_eq (selected_in props) (id club) = true).
    by rewrite marked_club.
Qed.

Lemma selection_marks_at_most_one_entry_witness :
  mount upper_ascii_only
    (Recorder.props (Some scenario_clubs) (Present (js "homebrew"))
       (Some true))
  = Rendered (scenario "homebrew")
  ∧ marked_count (button_classes (scenario "homebrew")) ≤ 1
  ∧ marked <$> (home_class <$> nav_home (scenario "homebrew")) = Some false
  ∧ (λ e, (key e, marked (club_class e))) <$> nav_clubs (scenario "homebrew")
    = [(js "homebrew", true); (js "devs", false)].
Proof.
  destruct (selection_marks_at_most_one_entry upper_ascii_only
              (Recorder.props (Some scenario_clubs) (Present (js "homebrew"))
                 (Some true)))
    as (nav & Hnav & Hcount & _).
  { apply (bool_decide_unpack _). vm_compute. exact I. }
  assert (Hm : mount upper_ascii_only
                 (Recorder.props (Some scenario_clubs)
                    (Present (js "homebrew")) (Some true))
               = Rendered (scenario "homebrew")) by (vm_compute; reflexivity).
  rewrite Hm in Hnav. injection Hnav as <-.
  split; [exact Hm|]. split; [exact Hcount|]. split; reflexivity.
Defined.

(** ** Accessible labels *)

(** C4. The Home entry, the club entries and the Settings entry are
    labelled with their display name, but the label of the create entry is
    ["Create club"] while its tooltip shows ["Create a club"]. *)
Theorem create_label_is_not_its_display_name
    (upper_ext : N → jsstring) {S : Type} (props : Props S) :
  action_aria_label (nav_create (render upper_ext props)) = js "Create club"
  ∧ action_tooltip (nav_create (render upper_ext props)) = js "Create a club"
  ∧ action_aria_label (nav_create (render upper_ext props))
    ≠ js "Create a club"
  ∧ action_aria_label (nav_settings (render upper_ext props)) = js "Settings"
  ∧ action_tooltip (nav_settings (render upper_ext props)) = js "Settings"
  ∧ Forall (λ h, home_aria_label h = js "Home" ∧ home_tooltip h = js "Home")
      (option_list (nav_home (render upper_ext props)))
  ∧ Forall2 (λ club e, club_aria_label e = name club
                       ∧ club_tooltip e = name club)
      (clubs_in props) (nav_clubs (render upper_ext props)).
Proof.
  repeat split; try done.
  - unfold render; cbn [nav_home]. destruct (showHome_in props); simpl;
      repeat constructor.
  - unfold render; cbn [nav_clubs]. apply Forall2_fmap_r, Forall_Forall2_diag.
    by apply Forall_forall.
Qed.

(** ** Activation *)

(** C5. When [select] is given, activating the entry of a club calls it
    with the id of that club and activating the Home entry calls it with
    null, and that call is all that happens; an owner who records the calls
    of all three callbacks sees exactly one call, of [select], per
    activation. *)
Theorem activation_calls_select_once (upper_ext : N → jsstring) :
  (∀ S (props : Props S) g s,
     select props = Some g →
     (∀ h, nav_home (render upper_ext props) = Some h →
        home_onclick h s = g {| payload_id := None |} s)
     ∧ (∀ i club, clubs_in props !! i = Some club →
          ∃ e, nav_clubs (render upper_ext props) !! i = Some e
            ∧ club_onclick e s = g {| payload_id := Some (id club) |} s))
  ∧ (∀ clubs sel sh log,
       (∀ h, nav_home (render upper_ext (Recorder.props clubs sel sh)) = Some h →
          home_onclick h log
          = Returned (log ++ [Recorder.CallSelect {| payload_id := None |}]))
       ∧ (∀ i club, default [] clubs !! i = Some club →
            ∃ e, nav_clubs (render upper_ext (Recorder.props clubs sel sh)) !! i
                 = Some e
              ∧ club_onclick e log
                = Returned
                    (log ++ [Recorder.CallSelect
                               {| payload_id := Some (id club) |}]))).
Proof.
  assert (Hgen : ∀ S (props : Props S) g s,
    select props = Some g →
    (∀ h, nav_home (render upper_ext props) = Some h →
       home_onclick h s = g {| payload_id := None |} s)
    ∧ (∀ i club, clubs_in props !! i = Some club →
         ∃ e, nav_clubs (render upper_ext props) !! i = Some e
           ∧ club_onclick e s = g {| payload_id := Some (id club) |} s)).
  { intros S props g s Hg. split.
    - intros h. unfold render; cbn [nav_home].
      destruct (showHome_in props); [|done]. intros [= <-]. simpl.
      by rewrite Hg.
    - intros i club Hi. rewrite nav_clubs_lookup, Hi. simpl.
      eexists; split; [done|]. by rewrite Hg. }
  split; [exact Hgen|].
  intros clubs sel sh log.
  exact (Hgen _ (Recorder.props clubs sel sh) _ log eq_refl).
Qed.

Lemma activation_calls_select_once_witness :
  ∃ e, nav_clubs (render upper_ascii_only
                    (Recorder.props (Some Shell.clubs) Null None)) !! 2%nat
       = Some e
    ∧ club_onclick e []
      = Returned [Recorder.CallSelect {| payload_id := Some (js "devs") |}].
Proof.
  exact (proj2 (proj2 (activation_calls_select_once upper_ascii_only)
                  (Some Shell.clubs) Null None [])
           2%nat
           (Shell.demo_club "devs" "Dev Collective" "#30e1b9" None (Some 1%Z))
           eq_refl).
Defined.

(** C9. When [showHome] is false the rail has no Home entry, whatever the
    selection and the clubs. *)
Theorem no_home_entry_without_showHome
    (upper_ext : N → jsstring) {S : Type} (props : Props S) :
  showHome props = Some false →
  nav_home (render upper_ext props) = None.
Proof.
  intros Hsh. unfold render, showHome_in; cbn [nav_home]. by rewrite Hsh.
Qed.

Lemma no_home_entry_without_showHome_witness :
  nav_home (render upper_ascii_only
              (Recorder.props (Some Shell.clubs) Null (Some false))) = None.
Proof.
  apply (no_home_entry_without_showHome upper_ascii_only
           (Recorder.props (Some Shell.clubs) Null (Some false))).
  reflexivity.
Defined.




(** ** Presentation *)

(** C8. What the entry of a club shows (icon, fallback glyph and its
    background, unread badge, mention dot) is a function of that club
    alone: the same function for all props and all positions. Hence
    reordering the collection reorders the presentations with it, and a
    club keeps its presentation at its new position. *)
Theorem presentation_depends_on_the_club_alone (upper_ext : N → jsstring) :
  ∃ derived : ClubSummary → Presentation,
    (∀ S (props : Props S) i club,
       clubs_in props !! i = Some club →
       ∃ e, nav_clubs (render upper_ext props) !! i = Some e
         ∧ presentation e = derived club)
    ∧ (∀ S (props1 props2 : Props S),
         clubs_in props1 ≡ₚ clubs_in props2 →
         presentation <$> nav_clubs (render upper_ext props1)
         ≡ₚ presentation <$> nav_clubs (render upper_ext props2))
    ∧ (∀ S (props1 props2 : Props S) i j club,
         clubs_in props1 ≡ₚ clubs_in props2 →
         clubs_in props1 !! i = Some club →
         clubs_in props2 !! j = Some club →
         ∃ e1 e2,
           nav_clubs (render upper_ext props1) !! i = Some e1
           ∧ nav_clubs (render upper_ext props2) !! j = Some e2
           ∧ presentation e1 = presentation e2).
Proof.
  exists (λ club, presentation
                    (render_club (S := unit) upper_ext None None club)).
  assert (Hmap : ∀ S (props : Props S),
    presentation <$> nav_clubs (render upper_ext props)
    = (λ club, presentation
                 (render_club (S := unit) upper_ext None None club))
        <$> clubs_in props).
  { intros S props. unfold render; cbn [nav_clubs].
    rewrite <-list_fmap_compose. by apply list_fmap_ext. }
  split; [|split].
  - intros S props i club Hi. rewrite nav_clubs_lookup, Hi. simpl.
    eexists; split; done.
  - intros S props1 props2 Hperm. rewrite !Hmap. by apply fmap_Permutation.
  - intros S props1 props2 i j club _ Hi Hj.
    rewrite !nav_clubs_lookup, Hi, Hj. simpl.
    do 2 eexists; repeat split; done.
Qed.

Lemma presentation_depends_on_the_club_alone_witness :
  presentation
    <$> nav_clubs (render upper_ascii_only
                     (Recorder.props (Some Shell.clubs) Null None))
  ≡ₚ presentation
       <$> nav_clubs (render upper_ascii_only
                        (Recorder.props (Some (reverse Shell.clubs))
                           (Present (js "devs")) (Some false))).
Proof.
  destruct (presentation_depends_on_the_club_alone upper_ascii_only)
    as (derived & _ & Hperm & _).
  apply Hperm. unfold clubs_in; simpl. symmetry. apply reverse_Permutation.
Defined.

(** ** The shell *)

(** C7. The selection starts at the id of the first club when there is a
    club and at null when there is none; with the clubs the layout
    declares, it starts at ["homebrew"]. *)
Theorem selection_starts_at_first_club :
  (∀ club others,
     Shell.selectedClubId (Shell.init (club :: others)) = Some (id club))
  ∧ Shell.selectedClubId (Shell.init []) = None
  ∧ Shell.selectedClubId Shell.mount = Some (js "homebrew").
Proof. repeat split. Qed.

(** C6. [handleSelect] returns with the selection replaced by the id of
    the payload, whatever that id is, and with the clubs as they were; if
    the id is the id of no club, the rail then rendered by the shell marks
    no entry as selected. *)
Theorem handleSelect_replaces_selection_unchecked
    (upper_ext : N → jsstring) (payload : Payload) (st : Shell.State) :
  ∃ st',
    Shell.handleSelect payload st = Returned st'
    ∧ Shell.selectedClubId st' = payload_id payload
    ∧ Shell.st_clubs st' = Shell.st_clubs st
    ∧ (∀ x, payload_id payload = Some x →
         x ∉ id <$> Shell.st_clubs st →
         marked_count (button_classes (Shell.rail upper_ext st')) = 0%nat).
Proof.
  eexists. split; [reflexivity|]. split; [done|]. split; [done|].
  intros x Hx Hnot. unfold Shell.rail. rewrite marked_count_rail.
  unfold render; cbn [nav_clubs].
  unfold selected_in, clubs_in, showHome_in; simpl. rewrite Hx; simpl.
  apply (no_club_marked_if_unknown upper_ext (S := Shell.State)).
  by intros y [= <-].
Qed.

Lemma handleSelect_replaces_selection_unchecked_witness :
  ∃ st',
    Shell.handleSelect {| payload_id := Some (js "ghost") |} Shell.mount
    = Returned st'
    ∧ Shell.selectedClubId st' = Some (js "ghost")
    ∧ Shell.st_clubs st' = Shell.clubs
    ∧ marked_count (button_classes (Shell.rail upper_ascii_only st')) = 0%nat.
Proof.
  destruct (handleSelect_replaces_selection_unchecked upper_ascii_only
              {| payload_id := Some (js "ghost") |} Shell.mount)
    as (st' & Hret & Hsel & Hclubs & Hnone).
  exists st'. split; [exact Hret|]. split; [exact Hsel|].
  split; [exact Hclubs|].
  apply (Hnone (js "ghost") eq_refl).
  apply (bool_decide_unpack _). vm_compute. exact I.
Defined.


(** ** The scenario of the specification *)

(** Home unselected; "Homebrew Guild" selected with the badge 3; "Dev
    Collective" unselected with the dot and no badge; activating it calls
    [select] with its id; and with that id selected the ring moves. *)
Example scenario_renders_as_specified :
  (marked <$> (home_class <$> nav_home (scenario "homebrew")) = Some false)
  ∧ (λ e, (club_aria_label e, marked (club_class e), fallback_text e,
           unread_badge e, mention_dot e))
      <$> nav_clubs (scenario "homebrew")
    = [ (js "Homebrew Guild", true, js "HG", Some (TextNum 3), false);
        (js "Dev Collective", false, js "DC", None, true) ]
  ∧ (λ e, club_onclick e []) <$> nav_clubs (scenario "homebrew") !! 1%nat
    = Some (Returned
              [Recorder.CallSelect {| payload_id := Some (js "devs") |}])
  ∧ (λ e, marked (club_class e)) <$> nav_clubs (scenario "devs")
    = [false; true].
Proof. repeat split. Qed.


(** * Further properties of the code *)

(** ** The rail inside the layout *)

Import Session.

Section Layout.

Variable upper_ext : N → jsstring.
Implicit Types (st : Shell.State) (club : ClubSummary).

Lemma rail_clubs_in st : clubs_in (Shell.rail_props st) = Shell.st_clubs st.
Proof. done. Qed.

Lemma rail_selected_in st :
  selected_in (Shell.rail_props st) = Shell.selectedClubId st.
Proof. unfold selected_in; simpl. by destruct (Shell.selectedClubId st). Qed.

Lemma click_home_in_layout st :
  click (Shell.rail upper_ext st) OnHome st
  = Returned {| Shell.st_clubs := Shell.st_clubs st;
                Shell.selectedClubId := None |}.
Proof. done. Qed.

Lemma click_club_in_layout st i club :
  Shell.st_clubs st !! i = Some club →
  click (Shell.rail upper_ext st) (OnClub i) st
  = Returned {| Shell.st_clubs := Shell.st_clubs st;
                Shell.selectedClubId := Some (id club) |}.
Proof.
  intros Hi. unfold click, onclick_of, Shell.rail.
  by rewrite nav_clubs_lookup, rail_clubs_in, Hi.
Qed.

Lemma click_nothing_in_layout st i :
  Shell.st_clubs st !! i = None →
  click (Shell.rail upper_ext st) (OnClub i) st = Returned st.
Proof.
  intros Hi. unfold click, onclick_of, Shell.rail.
  by rewrite nav_clubs_lookup, rail_clubs_in, Hi.
Qed.

Lemma interact_clubs st t :
  Shell.st_clubs (interact upper_ext st t) = Shell.st_clubs st.
Proof.
  unfold interact. destruct t as [|i| |]; try done.
  destruct (Shell.st_clubs st !! i) as [club|] eqn:Hi.
  - by rewrite (click_club_in_layout _ _ _ Hi).
  - by rewrite (click_nothing_in_layout _ _ Hi).
Qed.

Lemma interact_selection_known st t :
  selection_known st → selection_known (interact upper_ext st t).
Proof.
  intros Hst. unfold interact. destruct t as [|i| |]; try done.
  - by left.
  - destruct (Shell.st_clubs st !! i) as [club|] eqn:Hi.
    + rewrite (click_club_in_layout _ _ _ Hi). right. exists club.
      split; [|done]. simpl. by eapply list_elem_of_lookup_2.
    + by rewrite (click_nothing_in_layout _ _ Hi).
Qed.

Lemma run_clubs st ts :
  Shell.st_clubs (run upper_ext st ts) = Shell.st_clubs st.
Proof.
  revert st. induction ts as [|t ts IH]; intros st; [done|].
  simpl. fold (run upper_ext (interact upper_ext st t) ts).
  by rewrite IH, interact_clubs.
Qed.

Lemma run_selection_known st ts :
  selection_known st → selection_known (run upper_ext st ts).
Proof.
  revert st. induction ts as [|t ts IH]; intros st Hst; [done|].
  simpl. apply IH. by apply interact_selection_known.
Qed.

Lemma init_selection_known clubs : selection_known (Shell.init clubs).
Proof.
  destruct clubs as [|club others]; [by left|].
  right. exists club. split; [apply list_elem_of_here|done].
Qed.

(** Exactly one club entry carries the ring when the selection is the id
    of a club and the ids are pairwise different. *)
Lemma one_club_marked {S} (f : option (Payload → handler S)) club
    (l : list ClubSummary) :
  NoDup (id <$> l) → club ∈ l →
  marked_count
    (map club_class (map (render_club upper_ext (Some (id club)) f) l))
  = 1%nat.
Proof.
  induction l as [|c l IH]; intros Hnd Hin; [by apply elem_of_nil in Hin|].
  rewrite fmap_cons in Hnd. apply NoDup_cons in Hnd as [Hc Hnd].
  unfold marked_count in *. cbn [map List.filter]. rewrite marked_club.
  destruct (strict_eq (Some (id club)) (id c)) eqn:Heq.
  - apply strict_eq_true in Heq as [= Hid]. cbn [length]. f_equal.
    apply (no_club_marked_if_unknown upper_ext (S := S)).
    intros x [= <-]. by rewrite Hid.
  - apply IH; [done|]. apply elem_of_cons in Hin as [->|Hin]; [|done].
    exfalso. assert (strict_eq (Some (id c)) (id c) = true) as Ht
      by by apply strict_eq_true.
    congruence.
Qed.

Lemma one_button_marked_in_layout st :
  NoDup (id <$> Shell.st_clubs st) → selection_known st →
  marked_count (button_classes (Shell.rail upper_ext st)) = 1%nat.
Proof.
  intros Hnd Hst. unfold Shell.rail. rewrite marked_count_rail.
  unfold render; cbn [nav_clubs].
  rewrite rail_selected_in, rail_clubs_in.
  change (showHome_in (Shell.rail_props st)) with true.
  destruct Hst as [Hnone|(club & Hin & Hsel)].
  - rewrite Hnone. rewrite no_club_marked_if_unknown by done. done.
  - rewrite Hsel, bool_decide_eq_false_2 by done.
    by rewrite one_club_marked.
Qed.

End Layout.

(** X1. In the layout, activating the entry of a club returns with the
    selection set to the id of that club, and activating Home returns with
    the selection set to null; the clubs are left as they were. *)
Theorem layout_activation_selects_the_entry
    (upper_ext : N → jsstring) (st : Shell.State) :
  click (Shell.rail upper_ext st) OnHome st
  = Returned {| Shell.st_clubs := Shell.st_clubs st;
                Shell.selectedClubId := None |}
  ∧ (∀ i club,
       Shell.st_clubs st !! i = Some club →
       click (Shell.rail upper_ext st) (OnClub i) st
       = Returned {| Shell.st_clubs := Shell.st_clubs st;
                     Shell.selectedClubId := Some (id club) |}).
Proof. split; [done|]. intros i club. apply click_club_in_layout. Qed.

Lemma layout_activation_selects_the_entry_witness :
  click (Shell.rail upper_ascii_only Shell.mount) (OnClub 4) Shell.mount
  = Returned {| Shell.st_clubs := Shell.clubs;
                Shell.selectedClubId := Some (js "gamers") |}.
Proof.
  exact (proj2 (layout_activation_selects_the_entry upper_ascii_only
                  Shell.mount)
           4%nat
           (Shell.demo_club "gamers" "Night Gamers" "#4d9be6" None None)
           eq_refl).
Defined.

(** X2. The layout passes neither [create] nor [settings]: in the layout
    the two action buttons, and a target that is not rendered, leave the
    state exactly as it was. *)
Theorem layout_actions_do_nothing
    (upper_ext : N → jsstring) (st : Shell.State) :
  click (Shell.rail upper_ext st) OnCreate st = Returned st
  ∧ click (Shell.rail upper_ext st) OnSettings st = Returned st
  ∧ (∀ n, click (Shell.rail upper_ext st)
            (OnClub (length (Shell.st_clubs st) + n)) st
          = Returned st).
Proof.
  repeat split. intros n. apply click_nothing_in_layout.
  apply lookup_ge_None_2. lia.
Qed.

(** X3. With pairwise different ids, once the entry of a club has been
    activated the rail rendered next marks that entry, and it is the only
    button marked. *)
Theorem layout_marks_the_activated_club
    (upper_ext : N → jsstring) (st : Shell.State) i club :
  NoDup (id <$> Shell.st_clubs st) →
  Shell.st_clubs st !! i = Some club →
  ∃ e, nav_clubs (Shell.rail upper_ext (interact upper_ext st (OnClub i))) !! i
       = Some e
    ∧ key e = id club
    ∧ marked (club_class e) = true
    ∧ marked_count
        (button_classes
           (Shell.rail upper_ext (interact upper_ext st (OnClub i))))
      = 1%nat.
Proof.
  intros Hnd Hi. unfold interact. rewrite (click_club_in_layout _ _ _ _ Hi).
  cbn [state_of].
  set (st' := {| Shell.st_clubs := Shell.st_clubs st;
                 Shell.selectedClubId := Some (id club) |}).
  exists (render_club upper_ext (Some (id club)) (Some Shell.handleSelect)
            club).
  split; [|split; [done|split]].
  - unfold Shell.rail. rewrite nav_clubs_lookup, rail_clubs_in.
    change (Shell.st_clubs st') with (Shell.st_clubs st). by rewrite Hi.
  - rewrite marked_club. by apply strict_eq_true.
  - apply one_button_marked_in_layout; [done|].
    right. exists club. split; [|done]. simpl.
    by eapply list_elem_of_lookup_2.
Qed.

Lemma layout_marks_the_activated_club_witness :
  marked_count
    (button_classes
       (Shell.rail upper_ascii_only
          (interact upper_ascii_only Shell.mount (OnClub 2))))
  = 1%nat.
Proof.
  destruct (layout_marks_the_activated_club upper_ascii_only Shell.mount
              2%nat
              (Shell.demo_club "devs" "Dev Collective" "#30e1b9" None
                 (Some 1%Z)))
    as (e & _ & _ & _ & Hcount).
  - apply (bool_decide_unpack _). vm_compute. exact I.
  - reflexivity.
  - exact Hcount.
Defined.

(** X4. With pairwise different ids, after activating Home the rail is
    rendered with the Home entry marked, and it is the only button
    marked. *)
Theorem layout_marks_home_after_home
    (upper_ext : N → jsstring) (st : Shell.State) :
  NoDup (id <$> Shell.st_clubs st) →
  mount upper_ext (Shell.rail_props (interact upper_ext st OnHome))
  = Rendered (Shell.rail upper_ext (interact upper_ext st OnHome))
  ∧ (marked <$> (home_class
       <$> nav_home (Shell.rail upper_ext (interact upper_ext st OnHome)))
     = Some true)
  ∧ marked_count
      (button_classes (Shell.rail upper_ext (interact upper_ext st OnHome)))
    = 1%nat.
Proof.
  intros Hnd. split; [|split; [done|]].
  - apply mount_rendered.
    change (NoDup (id <$> Shell.st_clubs (interact upper_ext st OnHome))).
    by rewrite interact_clubs.
  - unfold interact. rewrite click_home_in_layout. simpl.
    unfold Shell.rail. rewrite marked_count_rail.
    unfold render; cbn [nav_clubs]. rewrite rail_selected_in. simpl.
    by rewrite no_club_marked_if_unknown.
Qed.

Lemma layout_marks_home_after_home_witness :
  (marked <$> (home_class
     <$> nav_home
           (Shell.rail upper_ascii_only
              (interact upper_ascii_only
                 (interact upper_ascii_only Shell.mount (OnClub 2)) OnHome)))
   = Some true)
  ∧ marked_count
      (button_classes
         (Shell.rail upper_ascii_only
            (interact upper_ascii_only
               (interact upper_ascii_only Shell.mount (OnClub 2)) OnHome)))
    = 1%nat.
Proof.
  apply (layout_marks_home_after_home upper_ascii_only
           (interact upper_ascii_only Shell.mount (OnClub 2))).
  apply (bool_decide_unpack _). vm_compute. exact I.
Defined.

(** X5. Whatever is activated and in whatever order, starting from the
    initial state, the clubs of the layout never change and the selection
    is always null or the id of one of the clubs: no stale id arises from
    the rail. *)
Theorem layout_selection_stays_known
    (upper_ext : N → jsstring) (clubs : list ClubSummary)
    (ts : list target) :
  Shell.st_clubs (run upper_ext (Shell.init clubs) ts) = clubs
  ∧ selection_known (run upper_ext (Shell.init clubs) ts).
Proof.
  split; [by rewrite run_clubs|].
  apply run_selection_known, init_selection_known.
Qed.

(** X6. With pairwise different ids, the layout shows exactly one marked
    button after every sequence of activations, the empty one included. *)
Theorem layout_always_marks_exactly_one
    (upper_ext : N → jsstring) (clubs : list ClubSummary)
    (ts : list target) :
  NoDup (id <$> clubs) →
  marked_count
    (button_classes (Shell.rail upper_ext (run upper_ext (Shell.init clubs) ts)))
  = 1%nat.
Proof.
  intros Hnd. apply one_button_marked_in_layout.
  - by rewrite run_clubs.
  - apply run_selection_known, init_selection_known.
Qed.

Lemma layout_always_marks_exactly_one_witness :
  marked_count
    (button_classes
       (Shell.rail upper_ascii_only
          (run upper_ascii_only (Shell.init Shell.clubs)
             [OnClub 3; OnCreate; OnHome; OnClub 9; OnClub 5; OnSettings])))
  = 1%nat.
Proof.
  apply (layout_always_marks_exactly_one upper_ascii_only Shell.clubs).
  apply (bool_decide_unpack _). vm_compute. exact I.
Defined.

(** X7. The last activation of a club entry or of Home decides the
    selection, whatever came before; activating an action button or a
    position without an entry changes nothing. *)
Theorem layout_last_activation_wins
    (upper_ext : N → jsstring) (clubs : list ClubSummary)
    (ts : list target) :
  (∀ i club, clubs !! i = Some club →
     Shell.selectedClubId
       (run upper_ext (Shell.init clubs) (ts ++ [OnClub i]))
     = Some (id club))
  ∧ Shell.selectedClubId (run upper_ext (Shell.init clubs) (ts ++ [OnHome]))
    = None
  ∧ run upper_ext (Shell.init clubs) (ts ++ [OnCreate])
    = run upper_ext (Shell.init clubs) ts
  ∧ run upper_ext (Shell.init clubs) (ts ++ [OnSettings])
    = run upper_ext (Shell.init clubs) ts
  ∧ (∀ i, clubs !! i = None →
       run upper_ext (Shell.init clubs) (ts ++ [OnClub i])
       = run upper_ext (Shell.init clubs) ts).
Proof.
  pose proof (run_clubs upper_ext (Shell.init clubs) ts) as Hclubs.
  simpl in Hclubs.
  assert (Hstep : ∀ t, run upper_ext (Shell.init clubs) (ts ++ [t])
                       = interact upper_ext
                           (run upper_ext (Shell.init clubs) ts) t).
  { intros t. unfold run. by rewrite foldl_snoc. }
  rewrite !Hstep.
  split; [|split; [done|split; [done|split; [done|]]]].
  - intros i club Hi. rewrite Hstep. unfold interact.
    rewrite (click_club_in_layout _ _ i club); [done|by rewrite Hclubs].
  - intros i Hi. rewrite Hstep. unfold interact.
    rewrite click_nothing_in_layout; [done|by rewrite Hclubs].
Qed.

Lemma layout_last_activation_wins_witness :
  Shell.selectedClubId
    (run upper_ascii_only (Shell.init Shell.clubs)
       ([OnHome; OnClub 1; OnCreate] ++ [OnClub 5]))
  = Some (js "plants").
Proof.
  exact (proj1 (layout_last_activation_wins upper_ascii_only Shell.clubs
                  [OnHome; OnClub 1; OnCreate])
           5%nat
           (Shell.demo_club "plants" "Plant Parents" "#91db69" None None)
           eq_refl).
Defined.


(** ** The rail on its own *)

(** X9. Activating the create button calls [create] once and nothing else,
    and activating the settings button calls [settings] once and nothing
    else, as an owner who records every call sees them. *)
Theorem action_buttons_call_their_callback_once
    (upper_ext : N → jsstring) clubs sel sh (log : list Recorder.call) :
  action_onclick (nav_create (render upper_ext (Recorder.props clubs sel sh)))
    log
  = Returned (log ++ [Recorder.CallCreate])
  ∧ action_onclick
      (nav_settings (render upper_ext (Recorder.props clubs sel sh))) log
    = Returned (log ++ [Recorder.CallSettings]).
Proof. done. Qed.

(** X11. With pairwise different ids the rail is rendered, with the Home
    entry unless [showHome] is given as false (leaving the prop out renders
    it), one button per club and the two action buttons. *)
Theorem home_rendered_unless_disabled
    (upper_ext : N → jsstring) {S : Type} (props : Props S) :
  NoDup (id <$> default [] (clubs props)) →
  ∃ nav,
    mount upper_ext props = Rendered nav
    ∧ (is_Some (nav_home nav) ↔ showHome props ≠ Some false)
    ∧ length (button_classes nav)
      = ((if bool_decide (showHome props = Some false) then 0 else 1)
         + length (default [] (clubs props)) + 2)%nat.
Proof.
  intros Hnd. exists (render upper_ext props).
  split; [by apply mount_rendered|].
  unfold button_classes, render, showHome_in, clubs_in; simpl.
  rewrite length_app, length_app, !length_map. simpl.
  destruct (showHome props) as [[]|]; simpl; (split; [|lia]).
  - split; [done|eauto].
  - split; [by intros [? ?]|done].
  - split; [done|eauto].
Qed.

Lemma home_rendered_unless_disabled_witness :
  ∃ nav, mount upper_ascii_only silent_props = Rendered nav
    ∧ is_Some (nav_home nav)
    ∧ length (button_classes nav) = 9%nat.
Proof.
  destruct (home_rendered_unless_disabled upper_ascii_only silent_props)
    as (nav & Hnav & Hhome & Hlen).
  { apply (bool_decide_unpack _). vm_compute. exact I. }
  exists nav. split; [exact Hnav|]. split; [|exact Hlen].
  apply Hhome. discriminate.
Defined.

(** X12. What the rail shows does not depend on the callbacks, and a prop
    left out shows the same as its default given explicitly: two sets of
    props with the same class and the same destructured clubs, selection
    and [showHome] render the same markup. *)
Theorem markup_depends_on_destructured_props
    (upper_ext : N → jsstring) {S1 S2 : Type}
    (props1 : Props S1) (props2 : Props S2) :
  clubs_in props1 = clubs_in props2 →
  selected_in props1 = selected_in props2 →
  showHome_in props1 = showHome_in props2 →
  className props1 = className props2 →
  markup (render upper_ext props1) = markup (render upper_ext props2).
Proof.
  intros Hclubs Hsel Hshow Hclass. unfold markup, render; simpl.
  rewrite Hclubs, Hsel, Hshow, Hclass. repeat f_equal.
  - by destruct (showHome_in props2).
  - rewrite <-!list_fmap_compose. by apply list_fmap_ext.
Qed.

Lemma markup_depends_on_destructured_props_witness :
  markup (render upper_ascii_only (no_props unit))
  = markup (render upper_ascii_only
              (Recorder.props (Some []) Null (Some true))).
Proof.
  apply (markup_depends_on_destructured_props upper_ascii_only
           (no_props unit) (Recorder.props (Some []) Null (Some true)));
    reflexivity.
Defined.

(** X13. An entry has an image exactly when [iconUrl] is a non-empty
    string, and then the image has that url and the name of the club as
    its alternative text; a null or empty [iconUrl] is treated like a
    missing one. *)
Theorem avatar_image_of_icon_url
    (upper_ext : N → jsstring) {S : Type} (props : Props S) i club :
  clubs_in props !! i = Some club →
  ∃ e, nav_clubs (render upper_ext props) !! i = Some e
    ∧ (∀ img, avatar_image e = Some img
              ↔ ∃ url, iconUrl club = Present url ∧ url ≠ []
                       ∧ img = {| src := url; alt := name club |})
    ∧ (iconUrl club = Absent ∨ iconUrl club = Null
       ∨ iconUrl club = Present [] → avatar_image e = None)
    ∧ fallback_text e = initials upper_ext (name club).
Proof.
  intros Hi. rewrite nav_clubs_lookup, Hi. simpl.
  eexists; split; [done|]. simpl.
  split; [|split; [|done]].
  - intros img. destruct (iconUrl club) as [| |[|c url]]; simpl.
    + split; [done|]. by intros (? & ? & _).
    + split; [done|]. by intros (? & ? & _).
    + split; [done|]. by intros (? & [= <-] & ? & _).
    + split.
      * intros [= <-]. by eexists.
      * by intros (? & [= <-] & _ & ->).
  - by intros [->|[->| ->]].
Qed.

Lemma avatar_image_of_icon_url_witness :
  ∃ e, nav_clubs
         (render upper_ascii_only
            (Recorder.props
               (Some [ {| id := js "a"; name := js "Art";
                          iconUrl := Present (js "/a.png");
                          unreadCount := None; mentionCount := None;
                          accentColor := Null |} ]) Null None)) !! 0%nat
       = Some e
    ∧ avatar_image e = Some {| src := js "/a.png"; alt := js "Art" |}.
Proof.
  destruct (avatar_image_of_icon_url upper_ascii_only
              (Recorder.props
                 (Some [ {| id := js "a"; name := js "Art";
                            iconUrl := Present (js "/a.png");
                            unreadCount := None; mentionCount := None;
                            accentColor := Null |} ]) Null None)
              0%nat _ eq_refl) as (e & He & Himg & _).
  exists e. split; [exact He|]. apply Himg.
  eexists. split; [reflexivity|]. split; [discriminate|reflexivity].
Defined.

(** X14. The fallback has a style exactly when [accentColor] is a
    non-empty string; the style then sets that color as background, and
    clubs with different such colors get different styles. *)
Theorem fallback_style_of_accent_color
    (upper_ext : N → jsstring) {S : Type} (props : Props S) i j club1 club2 :
  clubs_in props !! i = Some club1 →
  clubs_in props !! j = Some club2 →
  ∃ e1 e2,
    nav_clubs (render upper_ext props) !! i = Some e1
    ∧ nav_clubs (render upper_ext props) !! j = Some e2
    ∧ (fallback_style e1 ≠ []
       ↔ ∃ color, accentColor club1 = Present color ∧ color ≠ [])
    ∧ (∀ color, accentColor club1 = Present color → color ≠ [] →
         fallback_style e1
         = js "background:" ++ color
             ++ js "; color: var(--sidebar-foreground)")
    ∧ (∀ color1 color2,
         accentColor club1 = Present color1 → color1 ≠ [] →
         accentColor club2 = Present color2 → color2 ≠ [] →
         fallback_style e1 = fallback_style e2 → color1 = color2).
Proof.
  intros Hi Hj. rewrite !nav_clubs_lookup, Hi, Hj. simpl.
  do 2 eexists. split; [done|]. split; [done|]. simpl.
  split; [|split].
  - destruct (accentColor club1) as [| |[|c color]]; simpl.
    + split; [done|]. by intros (? & ? & _).
    + split; [done|]. by intros (? & ? & _).
    + split; [done|]. by intros (? & [= <-] & ?).
    + split; [|done]. intros _. by eexists.
  - intros color -> Hne. by destruct color.
  - intros color1 color2 -> Hne1 -> Hne2.
    destruct color1 as [|c1 r1]; [done|]. destruct color2 as [|c2 r2]; [done|].
    simpl. intros Heq.
    apply (app_inv_head (js "background:")) in Heq.
    change (c1 :: r1 ++ js "; color: var(--sidebar-foreground)")
      with ((c1 :: r1) ++ js "; color: var(--sidebar-foreground)") in Heq.
    change (c2 :: r2 ++ js "; color: var(--sidebar-foreground)")
      with ((c2 :: r2) ++ js "; color: var(--sidebar-foreground)") in Heq.
    by apply app_inv_tail in Heq.
Qed.

Lemma fallback_style_of_accent_color_witness :
  ∃ e, nav_clubs (Shell.rail upper_ascii_only Shell.mount) !! 0%nat = Some e
    ∧ fallback_style e
      = js "background:#fbff86; color: var(--sidebar-foreground)".
Proof.
  destruct (fallback_style_of_accent_color upper_ascii_only
              (Shell.rail_props Shell.mount) 0%nat 1%nat _ _
              eq_refl eq_refl)
    as (e1 & e2 & He1 & _ & _ & Hstyle & _).
  exists e1. split; [exact He1|].
  apply (Hstyle (js "#fbff86")); [reflexivity|discriminate].
Defined.

(** ** More on the fallback glyph *)

Lemma blank_trimEnd w : Spec.blank w → trimEnd w = [].
Proof. induction 1 as [|c w Hc _ IH]; simpl; [done|]. by rewrite IH, Hc. Qed.

Lemma trimStart_blank_app w s : Spec.blank w → trimStart (w ++ s) = trimStart s.
Proof. induction 1 as [|c w Hc _ IH]; simpl; [done|]. by rewrite Hc. Qed.

Lemma trimEnd_app_blank s w : Spec.blank w → trimEnd (s ++ w) = trimEnd s.
Proof.
  intros Hw. induction s as [|c s IH]; simpl; [by apply blank_trimEnd|].
  by rewrite IH.
Qed.

(** White space around a name does not change the first code units of its
    tokens. *)
Lemma firsts_split_padded w1 s w2 :
  Spec.blank w1 → Spec.blank w2 →
  firsts (split_ws (w1 ++ s ++ w2)) = firsts (split_ws s).
Proof.
  intros Hw1 Hw2.
  rewrite <-firsts_split_trimStart, trimStart_blank_app by done.
  rewrite firsts_split_trimStart. unfold split_ws.
  rewrite <-(proj1 (firsts_split_trimEnd (s ++ w2)) false).
  rewrite trimEnd_app_blank by done.
  apply (proj1 (firsts_split_trimEnd s)).
Qed.

Lemma trimStart_app_token s c s1 t :
  trimStart s = c :: s1 → trimStart (s ++ t) = c :: s1 ++ t.
Proof.
  induction s as [|d s IH]; simpl; [done|].
  destruct (is_ws d); [done|]. by intros [= <- <-].
Qed.

Lemma skip_token_app s t :
  Spec.skip_token s ≠ [] → Spec.skip_token (s ++ t) = Spec.skip_token s ++ t.
Proof.
  induction s as [|d s IH]; simpl; [done|]. by destruct (is_ws d).
Qed.

Lemma first_unit_app s c r t :
  CodeUnits.first_unit s = Some (c, r) → r ≠ [] →
  CodeUnits.first_unit (s ++ t) = Some (c, r ++ t).
Proof.
  unfold CodeUnits.first_unit.
  destruct (trimStart s) as [|d s1] eqn:Hs; [done|]. intros [= <- <-] Hr.
  rewrite (trimStart_app_token _ _ _ t Hs). by rewrite skip_token_app.
Qed.

Lemma first_unit_app_letter s c r t :
  CodeUnits.first_unit s = Some (c, r) →
  ∃ r', CodeUnits.first_unit (s ++ t) = Some (c, r').
Proof.
  unfold CodeUnits.first_unit.
  destruct (trimStart s) as [|d s1] eqn:Hs; [done|]. intros [= <- <-].
  rewrite (trimStart_app_token _ _ _ t Hs). eauto.
Qed.

Section Glyph.

Variable upper_ext : N → jsstring.
Hypothesis upper_ext_nonempty : ∀ c, upper_ext c ≠ [].

Lemma initials_nonempty name : initials upper_ext name ≠ [].
Proof.
  rewrite initials_by_first_units by done. unfold CodeUnits.initials_by_units.
  destruct (CodeUnits.first_unit name) as [[c1 rest]|]; [|done].
  pose proof (toUpperCase1_nonempty upper_ext upper_ext_nonempty c1) as H1.
  destruct (toUpperCase1 upper_ext c1) eqn:Hup; [done|].
  by destruct (CodeUnits.first_unit rest) as [[c2 ?]|].
Qed.

Lemma initials_padded w1 name w2 :
  Spec.blank w1 → Spec.blank w2 →
  initials upper_ext (w1 ++ name ++ w2) = initials upper_ext name.
Proof.
  intros Hw1 Hw2. unfold initials.
  rewrite !filter_first_upper, !firsts_split_trim by done.
  by rewrite firsts_split_padded.
Qed.

Lemma initials_two_tokens name c1 r1 c2 r2 more :
  CodeUnits.first_unit name = Some (c1, r1) →
  CodeUnits.first_unit r1 = Some (c2, r2) →
  initials upper_ext (name ++ more) = initials upper_ext name
  ∧ initials upper_ext name
    = toUpperCase1 upper_ext c1 ++ toUpperCase1 upper_ext c2.
Proof.
  intros H1 H2. rewrite !initials_by_first_units by done.
  unfold CodeUnits.initials_by_units.
  assert (r1 ≠ []) as Hr1 by (intros ->; done).
  rewrite (first_unit_app _ _ _ more H1 Hr1), H1, H2.
  by destruct (first_unit_app_letter _ _ _ more H2) as [r' ->].
Qed.

End Glyph.

(** X15. The glyph is never empty: there is always something to show in
    place of a missing icon. *)
Theorem initials_never_empty (upper_ext : N → jsstring) (name : jsstring) :
  (∀ c, upper_ext c ≠ []) →
  initials upper_ext name ≠ [].
Proof. intros Hne. by apply initials_nonempty. Qed.

Lemma initials_never_empty_witness :
  initials upper_ascii_only (js " ") ≠ []
  ∧ initials upper_ascii_only [] ≠ [].
Proof.
  split; apply (initials_never_empty upper_ascii_only); intros c; discriminate.
Defined.

(** X16. White space before and after a name does not change its glyph. *)
Theorem initials_ignore_surrounding_space
    (upper_ext : N → jsstring) (before name after : jsstring) :
  (∀ c, upper_ext c ≠ []) →
  Spec.blank before → Spec.blank after →
  initials upper_ext (before ++ name ++ after) = initials upper_ext name.
Proof. intros Hne. by apply initials_padded. Qed.

Lemma initials_ignore_surrounding_space_witness :
  initials upper_ascii_only (js "  " ++ js "dev collective" ++ js " ")
  = initials upper_ascii_only (js "dev collective").
Proof.
  apply (initials_ignore_surrounding_space upper_ascii_only);
    [intros c; discriminate|by repeat constructor..].
Defined.

(** X17. Once a name holds two tokens, nothing that comes after them
    changes what [initials] returns: the upper-case forms of the first code
    units of those two tokens, whatever is appended to the name. *)
Theorem initials_read_two_tokens_only
    (upper_ext : N → jsstring) (name more : jsstring) c1 r1 c2 r2 :
  (∀ c, upper_ext c ≠ []) →
  CodeUnits.first_unit name = Some (c1, r1) →
  CodeUnits.first_unit r1 = Some (c2, r2) →
  initials upper_ext (name ++ more) = initials upper_ext name
  ∧ initials upper_ext name
    = toUpperCase1 upper_ext c1 ++ toUpperCase1 upper_ext c2.
Proof. intros Hne. by apply initials_two_tokens. Qed.

Lemma initials_read_two_tokens_only_witness :
  initials upper_ascii_only (js "midnight sun" ++ js "rise club")
  = initials upper_ascii_only (js "midnight sun")
  ∧ initials upper_ascii_only (js "midnight sun") = js "MS".
Proof.
  apply (initials_read_two_tokens_only upper_ascii_only
           (js "midnight sun") (js "rise club")
           109%N (js " sun") 115%N []);
    [intros c; discriminate|reflexivity..].
Defined.

(** *** Names of ASCII characters *)

(** A property checked on the 128 ASCII code units holds of each of them. *)
Lemma ascii_cases (P : N → bool) :
  forallb P (map N.of_nat (seq 0 128)) = true →
  ∀ c, is_ascii c = true → P c = true.
Proof.
  intros Hall c Hc. rewrite forallb_forall in Hall. apply Hall.
  apply in_map_iff. exists (N.to_nat c). split; [apply N2Nat.id|].
  apply in_seq. unfold is_ascii in Hc. apply N.ltb_lt in Hc. lia.
Qed.

Lemma toUpperCase1_ascii_table (upper1 upper2 : N → jsstring) c :
  is_ascii c = true → toUpperCase1 upper1 c = toUpperCase1 upper2 c.
Proof.
  intros Hc. unfold toUpperCase1, is_ascii in *. rewrite Hc.
  by destruct ((97 <=? c)%N && (c <=? 122)%N).
Qed.

Lemma toUpperCase1_ascii_token (upper_ext : N → jsstring) c :
  is_ascii c = true → is_ws c = false →
  ∃ c', toUpperCase1 upper_ext c = [c']
        ∧ is_ascii c' = true ∧ is_lower c' = false ∧ is_ws c' = false.
Proof.
  intros Hc Hws.
  pose proof (ascii_cases (upper_ascii_ok upper_ext) eq_refl c Hc) as Hok.
  unfold upper_ascii_ok in Hok. rewrite Hws in Hok. simpl in Hok.
  destruct (toUpperCase1 upper_ext c) as [|c' [|]]; try done.
  exists c'. split; [done|].
  apply andb_true_iff in Hok as [Hok Hw].
  apply andb_true_iff in Hok as [Ha Hl].
  apply negb_true_iff in Hl, Hw. done.
Qed.

Section Kept.

Variable P : N → Prop.

Lemma Forall_trimStart s : Forall P s → Forall P (trimStart s).
Proof.
  induction 1 as [|c s Hc Hs IH]; simpl; [done|].
  destruct (is_ws c); [done|by constructor].
Qed.

Lemma Forall_trimEnd s : Forall P s → Forall P (trimEnd s).
Proof.
  induction 1 as [|c s Hc Hs IH]; simpl; [done|].
  destruct (trimEnd s); [destruct (is_ws c); by repeat constructor|].
  by constructor.
Qed.

Lemma Forall_cons_field c fields :
  P c → Forall (Forall P) fields → Forall (Forall P) (cons_field c fields).
Proof.
  intros Hc [|f fs Hf Hfs]; simpl; by repeat constructor.
Qed.

Lemma Forall_split_go b s : Forall P s → Forall (Forall P) (split_go b s).
Proof.
  intros Hs. revert b. induction Hs as [|c s Hc Hs IH]; intros b; simpl.
  - by repeat constructor.
  - destruct (is_ws c); [destruct b|]; auto using Forall_cons_field.
Qed.

Lemma Forall_skip_token s : Forall P s → Forall P (Spec.skip_token s).
Proof.
  induction 1 as [|c s Hc Hs IH]; simpl; [done|].
  destruct (is_ws c); [by constructor|done].
Qed.

Lemma first_unit_Forall s c r :
  Forall P s → CodeUnits.first_unit s = Some (c, r) →
  P c ∧ Forall P r ∧ is_ws c = false.
Proof.
  intros Hs. unfold CodeUnits.first_unit.
  destruct (trimStart s) as [|d s1] eqn:Hstart; [done|]. intros [= <- <-].
  apply Forall_trimStart in Hs. rewrite Hstart in Hs.
  apply Forall_cons in Hs as [Hd Hs1].
  split; [done|]. split; [by apply Forall_skip_token|].
  by eapply trimStart_head.
Qed.

End Kept.

(** On a name of ASCII characters the table of the runtime is not
    consulted. *)
Lemma initials_ascii_table (upper1 upper2 : N → jsstring) name :
  Forall (λ c, is_ascii c = true) name →
  initials upper1 name = initials upper2 name.
Proof.
  intros Hname. unfold initials.
  assert (Hmap : map (first_upper upper1) (split_ws (trim name))
                 = map (first_upper upper2) (split_ws (trim name))).
  { apply Forall_fmap_ext_1.
    eapply Forall_impl;
      [apply Forall_split_go, Forall_trimEnd, Forall_trimStart, Hname|].
    intros [|c f] Hf; [done|]. apply Forall_cons in Hf as [Hc _]. simpl.
    f_equal. by apply toUpperCase1_ascii_table. }
  by rewrite Hmap.
Qed.

(** X18. For a name of ASCII characters the glyph is one or two ASCII
    characters, none of them a lower-case letter or white space, and it is
    the same whatever the upper-case table of the runtime says outside
    ASCII. *)
Theorem initials_of_ascii_name
    (upper_ext : N → jsstring) (name : jsstring) :
  Forall (λ c, is_ascii c = true) name →
  (length (initials upper_ext name) = 1%nat
   ∨ length (initials upper_ext name) = 2%nat)
  ∧ Forall (λ c, is_ascii c = true ∧ is_lower c = false ∧ is_ws c = false)
      (initials upper_ext name)
  ∧ initials upper_ext name = initials upper_ascii_only name.
Proof.
  intros Hname. split; [|split]; [| |by apply initials_ascii_table].
  all: rewrite (initials_ascii_table upper_ext upper_ascii_only) by done.
  all: rewrite initials_by_first_units by (intros c; discriminate).
  all: unfold CodeUnits.initials_by_units.
  all: destruct (CodeUnits.first_unit name) as [[c1 r1]|] eqn:H1;
         [|first [by left|by repeat constructor]].
  all: destruct (first_unit_Forall _ _ _ _ Hname H1) as (Ha1 & Hr1 & Hw1).
  all: destruct (toUpperCase1_ascii_token upper_ascii_only c1 Ha1 Hw1)
         as (u1 & -> & Hu1).
  all: destruct (CodeUnits.first_unit r1) as [[c2 r2]|] eqn:H2;
         [|first [by left|by apply Forall_singleton]].
  all: destruct (first_unit_Forall _ _ _ _ Hr1 H2) as (Ha2 & _ & Hw2).
  all: destruct (toUpperCase1_ascii_token upper_ascii_only c2 Ha2 Hw2)
         as (u2 & -> & Hu2).
  - by right.
  - apply Forall_cons. split; [done|]. by apply Forall_singleton.
Qed.

Lemma initials_of_ascii_name_witness :
  Forall (λ c, is_ascii c = true ∧ is_lower c = false ∧ is_ws c = false)
    (initials upper_ascii_only (js "night gamers"))
  ∧ initials (λ _, []) (js "night gamers")
    = initials upper_ascii_only (js "night gamers").
Proof.
  split.
  - apply (initials_of_ascii_name upper_ascii_only (js "night gamers")).
    by repeat constructor.
  - apply (initials_of_ascii_name (λ _, []) (js "night gamers")).
    by repeat constructor.
Defined.

(** *** The fields [initials] reads *)

Lemma trimEnd_fixed_cons c s :
  trimEnd (c :: s) = c :: s →
  trimEnd s = s ∧ (is_ws c = true → s ≠ []).
Proof.
  simpl. destruct (trimEnd s) as [|d r] eqn:Hs.
  - destruct (is_ws c); [done|]. by intros [= <-].
  - intros [= <-]. done.
Qed.

Lemma trimEnd_idemp s : trimEnd (trimEnd s) = trimEnd s.
Proof.
  induction s as [|c s IH]; [done|]. simpl.
  destruct (trimEnd s) as [|d r] eqn:Hs.
  - destruct (is_ws c) eqn:Hc; [done|]. simpl. by rewrite Hc.
  - change (trimEnd (c :: d :: r))
      with (match trimEnd (d :: r) with
            | [] => if is_ws c then [] else [c]
            | r' => c :: r'
            end).
    by rewrite IH.
Qed.

Lemma split_go_fields_no_space b s :
  Forall (Forall (λ c, is_ws c = false)) (split_go b s).
Proof.
  revert b. induction s as [|c s IH]; intros b; simpl.
  - by repeat constructor.
  - destruct (is_ws c) eqn:Hc; [destruct b; auto|].
    by apply Forall_cons_field.
Qed.

(** Without white space at its end, a string splits into non-empty fields,
    the first one apart when the string starts with white space. *)
Lemma split_go_fields_nonempty s :
  trimEnd s = s →
  Forall (λ f, f ≠ []) (tail (split_go false s))
  ∧ (s ≠ [] → Forall (λ f, f ≠ []) (split_go true s)).
Proof.
  induction s as [|c s IH]; intros Hfix; [done|].
  apply trimEnd_fixed_cons in Hfix as [Hfix Hne].
  destruct (IH Hfix) as [IH1 IH2]. simpl.
  destruct (is_ws c) eqn:Hc; simpl.
  - split; [|intros _]; by apply IH2, Hne.
  - rewrite tail_cons_field. split; [done|]. intros _.
    destruct (split_go false s) as [|f fs]; simpl in *; by repeat constructor.
Qed.

(** X19. After [trim], [split] leaves a single empty field when the name is
    blank; otherwise every field is a token: not empty and free of white
    space. So [filter(Boolean)] has something to drop for a blank name
    only. *)
Theorem fields_of_a_trimmed_name (name : jsstring) :
  (Spec.blank name ∧ split_ws (trim name) = [[]])
  ∨ (Exists (λ c, is_ws c = false) name
     ∧ Forall (λ f, f ≠ [] ∧ Forall (λ c, is_ws c = false) f)
         (split_ws (trim name))).
Proof.
  unfold trim, split_ws.
  destruct (trimStart name) as [|c r] eqn:Hstart.
  - left. split; [|done]. clear -Hstart.
    induction name as [|d name IH]; [constructor|].
    simpl in Hstart. destruct (is_ws d) eqn:Hd; [|done].
    constructor; [done|by apply IH].
  - right. pose proof (trimStart_head _ _ _ Hstart) as Hc. split.
    + clear -Hstart Hc. induction name as [|d name IH]; [done|].
      simpl in Hstart. destruct (is_ws d) eqn:Hd.
      * apply Exists_cons_tl. by apply IH.
      * by apply Exists_cons_hd.
    + apply Forall_and. split; [|apply split_go_fields_no_space].
      rewrite trimEnd_cons_token by done.
      pose proof (split_go_fields_nonempty (c :: trimEnd r)) as [_ Hfields].
      { rewrite trimEnd_cons_token by done. by rewrite trimEnd_idemp. }
      specialize (Hfields ltac:(done)). simpl in *. by rewrite Hc in *.
Qed.

(** ** More on badges and marks *)

(** X20. A rendered unread badge never reads zero and never reads a number
    above 99: its text is either a count between them (or a negative one,
    which is not checked for) or the string ["99+"]. *)
Theorem unread_badge_text_range
    (upper_ext : N → jsstring) {S : Type} (props : Props S)
    (e : ClubButton S) :
  e ∈ nav_clubs (render upper_ext props) →
  (∀ n, unread_badge e = Some (TextNum n) → n ≠ 0%Z ∧ (n ≤ 99)%Z)
  ∧ (∀ s, unread_badge e = Some (TextStr s) → s = js "99+").
Proof.
  unfold render; cbn [nav_clubs]. intros Hin.
  apply list_elem_of_fmap in Hin as (club & -> & _). simpl.
  destruct (unreadCount club) as [m|]; [|done]. unfold truthy_number.
  destruct (Z.eqb_spec m 0); simpl; [done|].
  destruct (Z.ltb_spec 99 m); split; try done.
  - by intros s [= <-].
  - intros n' [= <-]. split; [done|lia].
Qed.

Lemma unread_badge_text_range_witness :
  unread_badge
    (render_club upper_ascii_only (Some (js "homebrew"))
       (Some Shell.handleSelect)
       (Shell.demo_club "homebrew" "Homebrew Guild" "#fbff86" (Some 3%Z) None))
  = Some (TextNum 3)
  ∧ 3%Z ≠ 0%Z ∧ (3 ≤ 99)%Z.
Proof.
  split; [reflexivity|].
  apply (proj1 (unread_badge_text_range upper_ascii_only
                  (Shell.rail_props Shell.mount)
                  (render_club upper_ascii_only (Some (js "homebrew"))
                     (Some Shell.handleSelect)
                     (Shell.demo_club "homebrew" "Homebrew Guild" "#fbff86"
                        (Some 3%Z) None))
                  (list_elem_of_here _ _))).
  reflexivity.
Defined.

Lemma marked_clubs_count {S} (upper_ext : N → jsstring) sel
    (f : option (Payload → handler S)) (l : list ClubSummary) :
  marked_count (map club_class (map (render_club upper_ext sel f) l))
  = length (filter (λ club, sel = Some (id club)) l).
Proof.
  unfold marked_count. induction l as [|c l IH]; [done|].
  cbn [map List.filter]. rewrite marked_club, filter_cons.
  destruct (strict_eq sel (id c)) eqn:Heq.
  - apply strict_eq_true in Heq. rewrite decide_True by done.
    simpl. by rewrite IH.
  - rewrite decide_False; [done|]. intros Hsel.
    apply strict_eq_true in Hsel. congruence.
Qed.

(** X21. With pairwise different ids the rail is rendered and the number
    of its buttons that carry the selection ring is known exactly: one
    when [selectedClubId] is the id of a club, one when it is null or left
    out and Home is rendered, and none otherwise. *)
Theorem marked_buttons_counted
    (upper_ext : N → jsstring) {S : Type} (props : Props S) :
  NoDup (id <$> default [] (clubs props)) →
  ∃ nav,
    mount upper_ext props = Rendered nav
    ∧ marked_count (button_classes nav)
      = match selectedClubId props with
        | Present x =>
            if bool_decide (x ∈ id <$> default [] (clubs props))
            then 1%nat else 0%nat
        | Null | Absent =>
            if bool_decide (showHome props = Some false)
            then 0%nat else 1%nat
        end.
Proof.
  intros Hnd. exists (render upper_ext props).
  split; [by apply mount_rendered|].
  rewrite marked_count_rail. unfold render; cbn [nav_clubs].
  unfold selected_in, showHome_in, clubs_in.
  destruct (selectedClubId props) as [| |x]; simpl.
  - rewrite no_club_marked_if_unknown by done.
    by destruct (showHome props) as [[]|].
  - rewrite no_club_marked_if_unknown by done.
    by destruct (showHome props) as [[]|].
  - assert (Hhome : (if default true (showHome props) then 0 else 0) = 0%nat).
    { by destruct (default true (showHome props)). }
    rewrite Hhome. simpl. case_bool_decide as Hx.
    + apply list_elem_of_fmap in Hx as (club & -> & Hin).
      by apply one_club_marked.
    + apply (no_club_marked_if_unknown upper_ext (S := S)).
      by intros y [= <-].
Qed.

Lemma marked_buttons_counted_witness :
  ∃ nav, mount upper_ascii_only
           (Recorder.props (Some Shell.clubs) (Present (js "ghost")) None)
         = Rendered nav
    ∧ marked_count (button_classes nav) = 0%nat.
Proof.
  destruct (marked_buttons_counted upper_ascii_only
              (Recorder.props (Some Shell.clubs) (Present (js "ghost")) None))
    as (nav & Hnav & Hcount).
  { apply (bool_decide_unpack _). vm_compute. exact I. }
  exists nav. split; [exact Hnav|exact Hcount].
Defined.
